(** * Mayo: property value conversion and the settings registry

    A shallow embedding of [src/base/property_builtins.cpp]
    ([PropertyValueConversion::toVariant] / [fromVariant]) and of
    [src/base/settings.cpp] (the [Settings] registry), with the theorems that
    settle the specification's statements about them.

    Conventions of the embedding:
    - [QByteArray], [QString] and [std::string] are all [string]; the UTF-8
      conversions between them ([QString::fromUtf8], [toStdString], ...) are
      the identity;
    - [int] is [Z]; the narrowing [int(size_t)] is written out as [int_cast];
    - [double] is the primitive binary64 [float];
    - [std::vector] is [list], [vector::at] is a checked lookup;
    - a [T*] that may be null is an [option];
    - a function that can end in [std::terminate] (a failed [Expects]), throw
      [std::out_of_range] or read an object through a null or dangling
      pointer returns [option]: [None] is that abnormal end;
    - [qCritical()] output, change notifications, the calls of
      [QSettings::setValue] and the calls of reset functions are collected in
      a list of [Event]s, oldest first. *)

From Stdlib Require Import ZArith Floats Uint63.
From stdpp Require Import base option list strings gmap.

Local Open Scope Z_scope.

(** ** Elementary types *)

Definition QByteArray := string.
Definition QString := string.

(** Milliseconds since the epoch stand for a [QDateTime]. *)
Definition QDateTime := Z.

(** [Qt::CheckState]. *)
Inductive CheckState := Unchecked | PartiallyChecked | Checked.

(** [gp_Pnt]: three coordinates. *)
Record gp_Pnt := { pnt_x : float; pnt_y : float; pnt_z : float }.

(** [gp_Trsf]: the coefficients of the transformation. *)
Record gp_Trsf := { trsf_coeffs : list float }.

(** [Quantity_Color]: red, green and blue components. *)
Record Quantity_Color := { red : float; green : float; blue : float }.

(** Modelled from the spec: the declaration of [TextId] is not part of the
    sources at hand.  "Identifier: (namespace, key, optional
    human-readable text). Equality and hashing by (namespace, key)."  A
    default-constructed [TextId] has an empty context and an empty key. *)
Record TextId := { trContext : QByteArray; key : QByteArray }.

Definition TextId_default : TextId := {| trContext := ""; key := "" |}.

(** [MAYO_TEXT_ID(trContext, key)]. *)
Definition MAYO_TEXT_ID (ctx k : QByteArray) : TextId :=
  {| trContext := ctx; key := k |}.

(** Modelled from the spec: the enumeration [Unit] is not part of the
    sources at hand.  "unit-kind is drawn from a closed set of physical
    dimensions (length, angle, mass, time, none, ...)"; the dimensions the
    spec does not name are [Unit_Other]. *)
Inductive Unit :=
| Unit_None
| Unit_Length
| Unit_Angle
| Unit_Mass
| Unit_Time
| Unit_Other (n : nat).

#[global] Instance Unit_eq_dec : EqDecision Unit.
Proof. solve_decision. Defined.

(** [UnitSystem::Schema]; only [SI] is used here. *)
Inductive Schema := SI | ImperialUK.

(** [UnitSystem::TranslateResult]; [strUnit] is a [const char*], null when
    the translation or the parse failed. *)
Record TranslateResult := {
  tr_value : float;
  tr_factor : float;
  strUnit : option string
}.

(** [qFuzzyIsNull(double)] of QtGlobal: [qAbs(d) <= 0.000000000001]. *)
Definition qFuzzyIsNull (d : float) : bool :=
  PrimFloat.leb (PrimFloat.abs d) 0x1.19799812dea11p-40%float.

Module Enumeration.

(** Modelled from the spec: [Enumeration] (property_enumeration.h) is not
    part of the sources at hand.  "Enumeration-backed properties store an integer
    discriminant but expose/accept symbolic names through an injected
    enumeration map (name <-> value)". *)
Record Item := { value : Z; name : TextId }.

Definition t := list Item.

#[global] Instance name_is_dec (n : QByteArray) (it : Item) :
  Decision (key (name it) = n).
Proof. solve_decision. Defined.

#[global] Instance value_is_dec (v : Z) (it : Item) : Decision (value it = v).
Proof. solve_decision. Defined.

(** [Enumeration::findItem(const QByteArray&)]: the first item of that
    name, null when there is none. *)
Definition findItem (e : t) (n : QByteArray) : option Item :=
  snd <$> list_find (fun it => key (name it) = n) e.

(** [Enumeration::findName(Value)]: the name of the first item of that
    value, empty when there is none. *)
Definition findName (e : t) (v : Z) : QByteArray :=
  default "" ((fun p => key (name (snd p))) <$> list_find (fun it => value it = v) e).

End Enumeration.

(** ** Variants and properties *)

(** The shapes of [QVariant] that cross the persistence boundary;
    [QVariant_Invalid] is the default-constructed [QVariant()]. *)
Inductive QVariant :=
| QVariant_Invalid
| QVariant_Bool (b : bool)
| QVariant_Int (i : Z)
| QVariant_Double (d : float)
| QVariant_ByteArray (b : QByteArray)
| QVariant_String (s : QString)
| QVariant_StringList (l : list QString)
| QVariant_DateTime (t : QDateTime).

(** The dynamic type of a property together with what it stores: this is what
    [isType<T>(prop)] discriminates.  An enumeration property carries its
    injected [Enumeration], a quantity property its declared unit.
    [PropertyUnknown] is any kind the converter has no branch for. *)
Inductive PropertyData :=
| PropertyBool (v : bool)
| PropertyInt (v : Z)
| PropertyDouble (v : float)
| PropertyCheckState (v : CheckState)
| PropertyQByteArray (v : QByteArray)
| PropertyQString (v : QString)
| PropertyQStringList (v : list QString)
| PropertyQDateTime (v : QDateTime)
| PropertyOccPnt (v : gp_Pnt)
| PropertyOccTrsf (v : gp_Trsf)
| PropertyOccColor (v : Quantity_Color)
| PropertyEnumeration (enumeration : Enumeration.t) (v : Z)
| BasePropertyQuantity (quantityUnit : Unit) (quantityValue : float)
| PropertyUnknown (typeName : string).

(** A [Property] object: its [name()] and its typed value. *)
Record Property := { name : TextId; data : PropertyData }.

(** What the code writes to the outside besides its results. *)
Inductive Event :=
| qCritical (msg : QString)
| notifyChanged (prop : TextId)
| QSettings_setValue (path : QString) (v : QVariant)
| invoke (target : nat).

(** [PropertyValueConversion]: the precision used for doubles. *)
Record PropertyValueConversion := { m_doubleToStringPrecision : Z }.

Definition defaultPropValueConverter : PropertyValueConversion :=
  {| m_doubleToStringPrecision := 6 |}.

(** ** Collaborators

    Code that [property_builtins.cpp] calls and that lives elsewhere: the
    conversions of [QVariant] (Qt), [TKernelUtils], [UnitSystem], the number
    formatting of the C++ library and the validation hook of [Property].  The
    theorems hold for every implementation of them. *)
Class Collaborators := {
  toBool : QVariant -> bool;
  toInt : QVariant -> Z;
  toDouble : QVariant -> float;
  toByteArray : QVariant -> QByteArray;
  toString : QVariant -> QString;
  toStringList : QVariant -> list QString;
  toDateTime : QVariant -> QDateTime;
  (** [TKernelUtils::colorToHex] and [colorFromHex]; the latter returns
      [false] (here [None]) when the text is not hexadecimal. *)
  colorToHex : Quantity_Color -> string;
  colorFromHex : string -> option Quantity_Color;
  (** [UnitSystem::translate] and [UnitSystem::parseQuantity]; the latter
      also fills in the [Unit] it recognised. *)
  translate : Schema -> float -> Unit -> TranslateResult;
  parseQuantity : string -> TranslateResult * Unit;
  (** Whether the build has [__cpp_lib_to_chars]; [std::to_chars] in general
      format ([None] is the error [value_too_large]); the [stringstream]
      formatting used otherwise. *)
  cpp_lib_to_chars : bool;
  to_chars : float -> Z -> option string;
  sstream_format : float -> Z -> string;
  (** The component-specific domain constraint a new value of a property
      has to satisfy. *)
  isValid : Property -> PropertyData -> bool
}.

Section Conversion.

Context `{Collaborators}.

(** Modelled from the spec: [GenericProperty<T>::setValue],
    [PropertyEnumeration::setValue] and
    [BasePropertyQuantity::setQuantityValue] (property_builtins.h,
    property_enumeration.h) are not part of the sources at hand.
    "setValue(T) -> bool (fails/returns false if the value violates a
    component-specific domain constraint ...). Every successful setValue
    must notify the owning Group synchronously before returning". *)
Definition setValue (prop : Property) (newValue : PropertyData)
  : bool * Property * list Event :=
  if isValid prop newValue
  then (true, {| name := name prop; data := newValue |}, [notifyChanged (name prop)])
  else (false, prop, []).

(** [PropertyValueConversion::toVariant]. *)
Definition toVariant (conv : PropertyValueConversion) (prop : Property)
  : QVariant * list Event :=
  match data prop with
  | PropertyBool v => (QVariant_Bool v, [])
  | PropertyInt v => (QVariant_Int v, [])
  | PropertyDouble v => (QVariant_Double v, [])
  | PropertyCheckState _ =>
      (QVariant_Invalid,
       [qCritical "toVariant() not yet implemented for PropertyCheckState"])
  | PropertyQByteArray v => (QVariant_ByteArray v, [])
  | PropertyQString v => (QVariant_String v, [])
  | PropertyQStringList v => (QVariant_StringList v, [])
  | PropertyQDateTime v => (QVariant_DateTime v, [])
  | PropertyOccPnt _ =>
      (QVariant_Invalid,
       [qCritical "toVariant() not yet implemented for PropertyOccPnt"])
  | PropertyOccTrsf _ =>
      (QVariant_Invalid,
       [qCritical "toVariant() not yet implemented for PropertyOccTrsf"])
  | PropertyOccColor c => (QVariant_String (colorToHex c), [])
  | PropertyEnumeration e v => (QVariant_String (Enumeration.findName e v), [])
  | BasePropertyQuantity u q =>
      let trRes := translate SI q u in
      let strUnit := default "" (strUnit trRes) in
      let x := PrimFloat.mul (tr_value trRes) (tr_factor trRes) in
      if cpp_lib_to_chars then
        match to_chars x (m_doubleToStringPrecision conv) with
        | Some buff => (QVariant_String (buff +:+ strUnit), [])
        | None =>
            (QVariant_Invalid,
             [qCritical "toVariant(PropertyQuantity) failed with error: 'value_too_large'"])
        end
      else
        (QVariant_String (sstream_format x (m_doubleToStringPrecision conv) +:+ strUnit), [])
  | PropertyUnknown _ => (QVariant_Invalid, [])
  end.

(** The lambda [fnError] of [fromVariant]: logs and returns [false]. *)
Definition fnError (prop : Property) (text : QString) : bool * Property * list Event :=
  (false, prop, [qCritical ("[property '" +:+ key (name prop) +:+ "'] " +:+ text)]).

(** [PropertyValueConversion::fromVariant]; [prop] may be null.  The
    pointer that comes back is [prop] itself, with the state of the object
    it points to after the call. *)
Definition fromVariant (conv : PropertyValueConversion)
    (prop : option Property) (variant : QVariant)
  : bool * option Property * list Event :=
  match prop with
  | None => (false, None, [])
  | Some p =>
      let '(ok, p', evs) :=
        match data p with
        | PropertyBool _ => setValue p (PropertyBool (toBool variant))
        | PropertyInt _ => setValue p (PropertyInt (toInt variant))
        | PropertyDouble _ => setValue p (PropertyDouble (toDouble variant))
        | PropertyCheckState _ =>
            fnError p "fromVariant() not yet implemented for PropertyCheckState"
        | PropertyQByteArray _ => setValue p (PropertyQByteArray (toByteArray variant))
        | PropertyQString _ => setValue p (PropertyQString (toString variant))
        | PropertyQStringList _ => setValue p (PropertyQStringList (toStringList variant))
        | PropertyQDateTime _ => setValue p (PropertyQDateTime (toDateTime variant))
        | PropertyOccPnt _ =>
            fnError p "fromVariant() not yet implemented for PropertyOccPnt"
        | PropertyOccTrsf _ =>
            fnError p "fromVariant() not yet implemented for PropertyOccTrsf"
        | PropertyOccColor _ =>
            let strColorHex := toString variant in
            match colorFromHex strColorHex with
            | None =>
                fnError p ("Not hexadecimal format '" +:+ toString variant +:+ "'")
            | Some color => setValue p (PropertyOccColor color)
            end
        | PropertyEnumeration e _ =>
            let name := toByteArray variant in
            match Enumeration.findItem e name with
            | None =>
                fnError p ("fromVariant() found no enumeration item for '"
                           +:+ toString variant +:+ "'")
            | Some ptrItem =>
                setValue p (PropertyEnumeration e (Enumeration.value ptrItem))
            end
        | BasePropertyQuantity quantityUnit _ =>
            let strQty := toString variant in
            let '(trRes, unit) := parseQuantity strQty in
            if bool_decide (strUnit trRes = None) || qFuzzyIsNull (tr_factor trRes) then
              fnError p ("fromVariant() failed to parse quantity string '"
                         +:+ toString variant +:+ "'")
            else if bool_decide (unit <> Unit_None) && bool_decide (unit <> quantityUnit) then
              fnError p ("fromVariant() unit mismatch with quantity string '"
                         +:+ toString variant +:+ "'")
            else
              setValue p
                (BasePropertyQuantity quantityUnit
                   (PrimFloat.mul (tr_value trRes) (tr_factor trRes)))
        | PropertyUnknown _ => (false, p, [])
        end
      in (ok, Some p', evs)
  end.

End Conversion.

(** ** The settings registry *)

(** The address of a [Property] object; the registry only holds pointers. *)
Abbreviation Addr := nat (only parsing).

(** [QSettings], the key-value store collaborator, as a finite map from the
    path it is given to the variant stored there: [contains], [value] and
    [setValue] by path. *)
Definition contains (store : gmap string QVariant) (path : QString) : bool :=
  bool_decide (is_Some (store !! path)).

Definition value (store : gmap string QVariant) (path : QString) : QVariant :=
  default QVariant_Invalid (store !! path).

Definition store_setValue (path : QString) (v : QVariant)
    (store : gmap string QVariant) : gmap string QVariant :=
  <[path := v]> store.

(** Modelled from the spec: [Settings::GroupIndex], [Settings::SectionIndex]
    and [Settings::SettingIndex] (settings.h) are not part of the sources at
    hand.  "Indices into the tree (GroupIndex, SectionIndex, SettingIndex)
    are positional"; each wraps an [int] and its parent index. *)
Record GroupIndex := mkGroupIndex { group_get : Z }.
Record SectionIndex := mkSectionIndex { section_group : GroupIndex; section_get : Z }.
Record SettingIndex := mkSettingIndex { setting_section : SectionIndex; setting_get : Z }.

#[global] Instance GroupIndex_eq_dec : EqDecision GroupIndex.
Proof. solve_decision. Defined.
#[global] Instance SectionIndex_eq_dec : EqDecision SectionIndex.
Proof. solve_decision. Defined.

(** [Settings_Setting]: a pointer to the property, possibly null. *)
Record Settings_Setting := { property : option Addr }.

(** [Settings_Section]; the source says of [identifier]: must be unique in
    the context of the parent group. *)
Record Settings_Section := {
  sec_identifier : TextId;
  sec_overridenTitle : QString;
  isDefault : bool;
  vecSetting : list Settings_Setting
}.

(** [Settings_Group]; the source says of [identifier]: must be unique in
    the context of the parent [Settings] object. *)
Record Settings_Group := {
  grp_identifier : TextId;
  grp_overridenTitle : QString;
  vecSection : list Settings_Section
}.

(** [Settings::ResetFunction] is a [std::function<void()>]: empty ([None]) or
    a callable target, known here by a number; calling it is the event
    [invoke]. *)
Definition ResetFunction := option nat.

(** [SectionResetFunction]. *)
Record SectionResetFunction := {
  sectionId : SectionIndex;
  fnReset : ResetFunction
}.

(** A callable of type [bool(const Property&)].  The argument is a
    reference: [holds] is the answer for a live object, from its address and
    its state; [on_absent] is what the callable does with a reference bound
    through a null pointer ([None]) or a dangling one, where there is no
    object: an answer when it does not read the object, [None], the abnormal
    end, when it reads it. *)
Record Predicate := {
  holds :> Addr -> Property -> bool;
  on_absent : option Addr -> option bool
}.

(** [Settings::ExcludePropertyPredicate]: an empty [std::function] or a
    predicate on a reference to the property. *)
Definition ExcludePropertyPredicate := option Predicate.

(** [Settings::Private], without [m_locale]; [m_propValueConverter] is the
    converter it points to. *)
Record Settings := {
  m_settings : gmap string QVariant;
  m_vecGroup : list Settings_Group;
  m_vecSectionResetFn : list SectionResetFunction;
  m_propValueConverter : PropertyValueConversion
}.

(** A freshly constructed [Settings]. *)
Definition Settings_new : Settings :=
  {| m_settings := ∅; m_vecGroup := []; m_vecSectionResetFn := [];
     m_propValueConverter := defaultPropValueConverter |}.

(** Value-initialised [Settings_Section] and [Settings_Group] (the [{}] of
    [push_back({})] and [insert(begin(), {})]). *)
Definition Settings_Section_init : Settings_Section :=
  {| sec_identifier := TextId_default; sec_overridenTitle := "";
     isDefault := false; vecSetting := [] |}.

Definition Settings_Group_init : Settings_Group :=
  {| grp_identifier := TextId_default; grp_overridenTitle := ""; vecSection := [] |}.

Definition set_m_vecGroup (v : list Settings_Group) (s : Settings) : Settings :=
  {| m_settings := m_settings s; m_vecGroup := v;
     m_vecSectionResetFn := m_vecSectionResetFn s;
     m_propValueConverter := m_propValueConverter s |}.

Definition set_vecSection (v : list Settings_Section) (g : Settings_Group) : Settings_Group :=
  {| grp_identifier := grp_identifier g; grp_overridenTitle := grp_overridenTitle g;
     vecSection := v |}.

Definition set_grp_identifier (id : TextId) (g : Settings_Group) : Settings_Group :=
  {| grp_identifier := id; grp_overridenTitle := grp_overridenTitle g;
     vecSection := vecSection g |}.

Definition set_sec_identifier (id : TextId) (c : Settings_Section) : Settings_Section :=
  {| sec_identifier := id; sec_overridenTitle := sec_overridenTitle c;
     isDefault := isDefault c; vecSetting := vecSetting c |}.

Definition set_isDefault (b : bool) (c : Settings_Section) : Settings_Section :=
  {| sec_identifier := sec_identifier c; sec_overridenTitle := sec_overridenTitle c;
     isDefault := b; vecSetting := vecSetting c |}.

Definition set_vecSetting (v : list Settings_Setting) (c : Settings_Section) : Settings_Section :=
  {| sec_identifier := sec_identifier c; sec_overridenTitle := sec_overridenTitle c;
     isDefault := isDefault c; vecSetting := v |}.

(** The narrowing conversion to a 32-bit [int]. *)
Definition int_cast (n : Z) : Z := (n + 2 ^ 31) mod 2 ^ 32 - 2 ^ 31.

(** [std::vector::at] with an [int] argument: a negative [int] becomes a
    huge [size_t], so it is out of range like any index past the end. *)
Definition at_ {A} (v : list A) (i : Z) : option A :=
  if decide (0 <= i) then v !! Z.to_nat i else None.

(** The space characters of [QByteArray::simplified]: those of [isspace]. *)
Definition isSpace (c : Ascii.ascii) : bool :=
  let n := Ascii.nat_of_ascii c in
  Nat.eqb n 32 || (Nat.leb 9 n && Nat.leb n 13).

(** [QByteArray::simplified]: no space at either end, every inner run of
    spaces replaced by one space.  [emitted] tells whether a character was
    already output, [pending] whether a run of spaces waits to be output. *)
Fixpoint simplified_from (emitted pending : bool) (s : string) : string :=
  match s with
  | EmptyString => EmptyString
  | String c s' =>
      if isSpace c then simplified_from emitted emitted s'
      else if pending then String Ascii.Space (String c (simplified_from true false s'))
      else String c (simplified_from true false s')
  end.

Definition simplified (s : QByteArray) : QByteArray := simplified_from false false s.

Definition isEmpty (s : string) : bool :=
  match s with EmptyString => true | _ => false end.

Definition isValidIdentifier (identifier : QByteArray) : bool :=
  negb (isEmpty identifier) && negb (isEmpty (simplified identifier)).

(** A range-based [for] whose body may end abnormally. *)
Fixpoint for_each {A S} (body : A -> S -> option S) (l : list A) (st : S) : option S :=
  match l with
  | [] => Some st
  | x :: l' => st' ← body x st; for_each body l' st'
  end.

(** *** Access by index *)

(** [Settings::Private::group]. *)
Definition group (s : Settings) (index : GroupIndex) : option Settings_Group :=
  at_ (m_vecGroup s) (group_get index).

(** [Settings::Private::section]. *)
Definition section (s : Settings) (index : SectionIndex) : option Settings_Section :=
  g ← group s (section_group index);
  at_ (vecSection g) (section_get index).

(** Assignment through the reference [d->group(index)]. *)
Definition put_group (index : GroupIndex) (g : Settings_Group) (s : Settings) : Settings :=
  set_m_vecGroup (<[Z.to_nat (group_get index) := g]> (m_vecGroup s)) s.

(** Assignment through the reference [d->section(index)]. *)
Definition put_section (index : SectionIndex) (c : Settings_Section) (s : Settings)
  : option Settings :=
  g ← group s (section_group index);
  Some (put_group (section_group index)
          (set_vecSection (<[Z.to_nat (section_get index) := c]> (vecSection g)) g) s).

(** [Settings::groupIdentifier], [sectionIdentifier], [isDefaultGroupSection],
    [groupCount], [sectionCount], [settingCount], [property]. *)
Definition groupIdentifier (s : Settings) (index : GroupIndex) : option QByteArray :=
  g ← group s index; Some (key (grp_identifier g)).

Definition sectionIdentifier (s : Settings) (index : SectionIndex) : option QByteArray :=
  c ← section s index; Some (key (sec_identifier c)).

Definition isDefaultGroupSection (s : Settings) (index : SectionIndex) : option bool :=
  c ← section s index; Some (isDefault c).

Definition groupCount (s : Settings) : Z := int_cast (Z.of_nat (length (m_vecGroup s))).

Definition sectionCount (s : Settings) (index : GroupIndex) : option Z :=
  g ← group s index; Some (int_cast (Z.of_nat (length (vecSection g)))).

Definition settingCount (s : Settings) (index : SectionIndex) : option Z :=
  c ← section s index; Some (int_cast (Z.of_nat (length (vecSetting c)))).

Definition Settings_property (s : Settings) (index : SettingIndex) : option (option Addr) :=
  c ← section s (setting_section index);
  t ← at_ (vecSetting c) (setting_get index);
  Some (property t).

(** *** Building the tree *)

#[global] Instance grp_key_is_dec (identifier : QByteArray) (g : Settings_Group) :
  Decision (key (grp_identifier g) = identifier).
Proof. solve_decision. Defined.

(** [Settings::addGroup(QByteArray)]. *)
Definition addGroup (identifier : QByteArray) (s : Settings)
  : option (GroupIndex * Settings) :=
  if isValidIdentifier identifier then
    match list_find (fun g => key (grp_identifier g) = identifier) (m_vecGroup s) with
    | Some (i, _) => Some (mkGroupIndex (int_cast (Z.of_nat i)), s)
    | None =>
        let defaultSection := set_isDefault true Settings_Section_init in
        let g :=
          set_vecSection [defaultSection]
            (set_grp_identifier
               {| trContext := trContext TextId_default; key := identifier |}
               Settings_Group_init) in
        let v := m_vecGroup s ++ [g] in
        Some (mkGroupIndex (int_cast (int_cast (Z.of_nat (length v)) - 1)),
              set_m_vecGroup v s)
    end
  else None.

(** [Settings::addGroup(TextId)]. *)
Definition addGroup_TextId (identifier : TextId) (s : Settings)
  : option (GroupIndex * Settings) :=
  '(index, s1) ← addGroup (key identifier) s;
  g ← group s1 index;
  Some (index, put_group index (set_grp_identifier identifier g) s1).

(** [Settings::addSection(GroupIndex, QByteArray)]. *)
Definition addSection (index : GroupIndex) (identifier : QByteArray) (s : Settings)
  : option (SectionIndex * Settings) :=
  if isValidIdentifier identifier then
    g ← group s index;
    let c :=
      set_sec_identifier
        {| trContext := trContext TextId_default; key := identifier |}
        Settings_Section_init in
    let v := vecSection g ++ [c] in
    Some (mkSectionIndex index (int_cast (int_cast (Z.of_nat (length v)) - 1)),
          put_group index (set_vecSection v g) s)
  else None.

(** [Settings::addSection(GroupIndex, TextId)]. *)
Definition addSection_TextId (index : GroupIndex) (identifier : TextId) (s : Settings)
  : option (SectionIndex * Settings) :=
  '(sectionIndex, s1) ← addSection index (key identifier) s;
  c ← section s1 sectionIndex;
  s2 ← put_section sectionIndex (set_sec_identifier identifier c) s1;
  Some (sectionIndex, s2).

(** [Settings::addSetting(Property*, SectionIndex)]. *)
Definition addSetting_Section (prop : option Addr) (index : SectionIndex) (s : Settings)
  : option (SettingIndex * Settings) :=
  c ← section s index;
  let v := vecSetting c ++ [{| property := prop |}] in
  s1 ← put_section index (set_vecSetting v c) s;
  Some (mkSettingIndex index (int_cast (int_cast (Z.of_nat (length v)) - 1)), s1).

(** [Settings::addSetting(Property*, GroupIndex)].  The pointer
    [sectionDefault] is the position [pos] of the section it points to in
    [group.vecSection].  When the first section is not default the call
    [group.vecSection.insert(group.vecSection.begin(), {})] selects the
    overload of [insert] that takes an initializer list, with an empty list:
    it inserts nothing, and [sectionDefault] is the section that was first
    already. *)
Definition addSetting_Group (prop : option Addr) (groupId : GroupIndex) (s : Settings)
  : option (SettingIndex * Settings) :=
  g ← group s groupId;
  '(pos, s1) ←
    match vecSection g with
    | [] =>
        '(sectionId, s1) ←
          addSection_TextId groupId (MAYO_TEXT_ID "Mayo::Settings" "DEFAULT") s;
        _ ← section s1 sectionId;
        Some (section_get sectionId, s1)
    | front :: _ =>
        if isDefault front then Some (0, s)
        else
          Some (0, put_group groupId (set_vecSection ([] ++ vecSection g) g) s)
    end;
  let sectionDefault := mkSectionIndex groupId pos in
  c ← section s1 sectionDefault;
  s2 ← put_section sectionDefault (set_isDefault true c) s1;
  let sectionId := mkSectionIndex groupId (int_cast pos) in
  addSetting_Section prop sectionId s2.

(** *** Persistence *)

(** [Settings::Private::sectionPath(group, section)]. *)
Definition sectionPath (g : Settings_Group) (c : Settings_Section) : QString :=
  key (grp_identifier g) +:+ "/" +:+ key (sec_identifier c).

(** [Settings::Private::sectionPath(SectionIndex)]. *)
Definition sectionPath_index (s : Settings) (index : SectionIndex) : option QString :=
  g ← group s (section_group index);
  c ← section s index;
  Some (sectionPath g c).

Section Persistence.

Context `{Collaborators}.

(** [Settings::Private::loadPropertyFrom]: the state is the objects the
    property pointers point to and the events so far. *)
Definition loadPropertyFrom (s : Settings) (source : gmap string QVariant)
    (sectionPath : QString) (prop : option Addr)
    (st : gmap nat Property * list Event) : option (gmap nat Property * list Event) :=
  match prop with
  | None => Some st
  | Some a =>
      p ← st.1 !! a;
      let propertyKey := key (name p) in
      let settingPath := sectionPath +:+ "/" +:+ propertyKey in
      if contains source settingPath then
        let v := value source settingPath in
        let '(_, p', evs) := fromVariant (m_propValueConverter s) (Some p) v in
        Some (from_option (fun q => <[a := q]> st.1) st.1 p', st.2 ++ evs)
      else Some st
  end.

(** The test [!fnExclude || !fnExclude( *prop )]: whether [fnExclude] is
    empty or does not hold of the property [prop] points to.  The call only
    binds a reference to what [prop] points to; with a null or dangling
    [prop] the outcome is that of the predicate on such a reference. *)
Definition notExcluded (fnExclude : ExcludePropertyPredicate) (prop : option Addr)
    (heap : gmap nat Property) : option bool :=
  match fnExclude with
  | None => Some true
  | Some f =>
      match prop ≫= fun a => pair a <$> heap !! a with
      | Some (a, p) => Some (negb (f a p))
      | None => negb <$> on_absent f prop
      end
  end.

(** [Settings::loadFrom]. *)
Definition loadFrom (s : Settings) (source : gmap string QVariant)
    (fnExclude : ExcludePropertyPredicate)
    (st : gmap nat Property * list Event) : option (gmap nat Property * list Event) :=
  for_each (fun g =>
    for_each (fun c =>
      let sectionPath := sectionPath g c in
      for_each (fun t st =>
        b ← notExcluded fnExclude (property t) st.1;
        if b : bool then loadPropertyFrom s source sectionPath (property t) st
        else Some st)
      (vecSetting c))
    (vecSection g))
  (m_vecGroup s) st.

(** [Settings::loadPropertyFrom(source, SettingIndex)]. *)
Definition loadPropertyFrom_index (s : Settings) (source : gmap string QVariant)
    (index : SettingIndex)
    (st : gmap nat Property * list Event) : option (gmap nat Property * list Event) :=
  prop ← Settings_property s index;
  match prop with
  | Some _ =>
      sectionPath ← sectionPath_index s (setting_section index);
      loadPropertyFrom s source sectionPath prop st
  | None => Some st
  end.

(** [Settings::saveAs]: [target] may be null; the state is the store
    behind [target] and the events so far.  The property objects are only
    read. *)
Definition saveAs (s : Settings) (heap : gmap nat Property)
    (target : option (gmap string QVariant)) (fnExclude : ExcludePropertyPredicate)
  : option (option (gmap string QVariant) * list Event) :=
  match target with
  | None => Some (None, [])
  | Some store =>
      '(store', evs) ←
        for_each (fun g =>
          for_each (fun c =>
            let sectionPath := sectionPath g c in
            for_each (fun t (st : gmap string QVariant * list Event) =>
              let prop := property t in
              b ← notExcluded fnExclude prop heap;
              if b : bool then
                a ← prop;
                p ← heap !! a;
                let propKey := key (name p) in
                let settingPath := sectionPath +:+ "/" +:+ propKey in
                let '(v, evs) := toVariant (m_propValueConverter s) p in
                Some (store_setValue settingPath v st.1,
                      st.2 ++ evs ++ [QSettings_setValue settingPath v])
              else Some st)
            (vecSetting c))
          (vecSection g))
        (m_vecGroup s) (store, []);
      Some (Some store', evs)
  end.

End Persistence.

(** *** Reset functions *)

(** [Settings::addResetFunction(SectionIndex, ResetFunction)]. *)
Definition addResetFunction_Section (index : SectionIndex) (fn : ResetFunction)
    (s : Settings) : Settings :=
  match fn with
  | Some _ =>
      let obj := {| sectionId := index; fnReset := fn |} in
      {| m_settings := m_settings s; m_vecGroup := m_vecGroup s;
         m_vecSectionResetFn := m_vecSectionResetFn s ++ [obj];
         m_propValueConverter := m_propValueConverter s |}
  | None => s
  end.

(** [Settings::addResetFunction(GroupIndex, ResetFunction)]. *)
Definition addResetFunction_Group (index : GroupIndex) (fn : ResetFunction)
    (s : Settings) : Settings :=
  addResetFunction_Section (mkSectionIndex index 0) fn s.

(** The call [sectionResetFn.fnReset()]: calling an empty [std::function]
    throws [std::bad_function_call]. *)
Definition call (fn : ResetFunction) (evs : list Event) : option (list Event) :=
  target ← fn; Some (evs ++ [invoke target]).

(** [Settings::resetAll]. *)
Definition resetAll (s : Settings) : option (list Event) :=
  for_each (fun sectionResetFn evs => call (fnReset sectionResetFn) evs)
    (m_vecSectionResetFn s) [].

(** [Settings::resetGroup]. *)
Definition resetGroup (index : GroupIndex) (s : Settings) : option (list Event) :=
  for_each (fun sectionResetFn evs =>
      if decide (section_group (sectionId sectionResetFn) = index)
      then call (fnReset sectionResetFn) evs
      else Some evs)
    (m_vecSectionResetFn s) [].

(** [Settings::resetSection]. *)
Definition resetSection (index : SectionIndex) (s : Settings) : option (list Event) :=
  for_each (fun sectionResetFn evs =>
      if decide (sectionId sectionResetFn = index)
      then call (fnReset sectionResetFn) evs
      else Some evs)
    (m_vecSectionResetFn s) [].



(** ** Derived notions used to state the theorems *)

(** The settings in the order [loadFrom] and [saveAs] visit them, each with
    the section path computed for it. *)
Definition settings_paths (s : Settings) : list (QString * option Addr) :=
  g ← m_vecGroup s; c ← vecSection g; t ← vecSetting c;
  [(sectionPath g c, property t)].

(** Every registered property pointer is non-null and points to a live
    object. *)
Definition live_settings (s : Settings) (heap : gmap nat Property) : Prop :=
  Forall (fun e => exists a, e.2 = Some a /\ is_Some (heap !! a)) (settings_paths s).

(** What one visit of [loadFrom] does to a setting. *)
Definition load_visit `{Collaborators} (s : Settings) (source : gmap string QVariant)
    (fnExclude : ExcludePropertyPredicate) (e : QString * option Addr)
    (st : gmap nat Property * list Event) : option (gmap nat Property * list Event) :=
  b ← notExcluded fnExclude e.2 st.1;
  if b : bool then loadPropertyFrom s source e.1 e.2 st else Some st.

(** What one visit of [saveAs] does to a setting. *)
Definition save_visit `{Collaborators} (s : Settings) (heap : gmap nat Property)
    (fnExclude : ExcludePropertyPredicate) (e : QString * option Addr)
    (st : gmap string QVariant * list Event) : option (gmap string QVariant * list Event) :=
  b ← notExcluded fnExclude e.2 heap;
  if b : bool then
    a ← e.2;
    p ← heap !! a;
    let settingPath := e.1 +:+ "/" +:+ key (name p) in
    let '(v, evs) := toVariant (m_propValueConverter s) p in
    Some (store_setValue settingPath v st.1, st.2 ++ evs ++ [QSettings_setValue settingPath v])
  else Some st.

(** Section 0 of every group exists and is the default one. *)
Definition section0_default (s : Settings) : Prop :=
  Forall (fun g => exists c, vecSection g !! 0%nat = Some c /\ isDefault c = true)
    (m_vecGroup s).

(** Every registered reset function is callable. *)
Definition callable_resets (s : Settings) : Prop :=
  Forall (fun r => is_Some (fnReset r)) (m_vecSectionResetFn s).

(** A call of [addGroup] or [addSection], and a sequence of such calls made
    one after the other; a call that ends abnormally ends the sequence. *)
Inductive TreeCall :=
| CallAddGroup (identifier : QByteArray)
| CallAddSection (index : GroupIndex) (identifier : QByteArray).

Definition runCall (c : TreeCall) (s : Settings) : option Settings :=
  match c with
  | CallAddGroup identifier => snd <$> addGroup identifier s
  | CallAddSection index identifier => snd <$> addSection index identifier s
  end.

Definition runCalls (cs : list TreeCall) (s : Settings) : option Settings :=
  for_each runCall cs s.

(** A call of one of the two [addResetFunction] overloads. *)
Inductive Registration :=
| ViaGroup (index : GroupIndex) (fn : ResetFunction)
| ViaSection (index : SectionIndex) (fn : ResetFunction).

Definition register (r : Registration) (s : Settings) : Settings :=
  match r with
  | ViaGroup index fn => addResetFunction_Group index fn s
  | ViaSection index fn => addResetFunction_Section index fn s
  end.

Definition registerAll (rs : list Registration) (s : Settings) : Settings :=
  fold_left (fun s r => register r s) rs s.

(** The group a registration is bound to, and its function. *)
Definition bound_group (r : Registration) : GroupIndex :=
  match r with
  | ViaGroup index _ => index
  | ViaSection index _ => section_group index
  end.

Definition registered_fn (r : Registration) : ResetFunction :=
  match r with ViaGroup _ fn | ViaSection _ fn => fn end.

(** What a registration appends to [m_vecSectionResetFn]: nothing when its
    function is empty. *)
Definition record_of (r : Registration) : option SectionResetFunction :=
  match r with
  | ViaGroup index (Some f) =>
      Some {| sectionId := mkSectionIndex index 0; fnReset := Some f |}
  | ViaSection index (Some f) => Some {| sectionId := index; fnReset := Some f |}
  | _ => None
  end.

(** The calls of the non-empty functions of [rs], in order. *)
Definition invocations (rs : list Registration) : list Event :=
  omap (fun r => invoke <$> registered_fn r) rs.

Definition invocations_of (v : list SectionResetFunction) : list Event :=
  omap (fun r => invoke <$> fnReset r) v.

(** The section [addSetting(Property*, GroupIndex)] appends to, as it is
    before the call, and the sections that follow it afterwards. *)
Definition default_section_of (g : Settings_Group)
  : Settings_Section * list Settings_Section :=
  match vecSection g with
  | [] =>
      (set_sec_identifier (MAYO_TEXT_ID "Mayo::Settings" "DEFAULT")
         Settings_Section_init, [])
  | front :: rest => (front, rest)
  end.

(** The path of a setting: the section path, a slash, the key of the
    property. *)
Definition settingPath (sectionPath : QString) (p : Property) : QString :=
  sectionPath +:+ "/" +:+ key (name p).

(** The property at [a] is registered as exactly one setting, under the
    section path [sp]. *)
Definition registered_once (s : Settings) (a : nat) (sp : QString) : Prop :=
  exists l1 l2,
    settings_paths s = l1 ++ (sp, Some a) :: l2 /\
    Forall (fun e => e.2 <> Some a) (l1 ++ l2).

(** Whether the exclude predicate holds of the property at [a]; an empty
    predicate excludes nothing. *)
Definition excludes (fnExclude : ExcludePropertyPredicate) (a : nat) (p : Property) : bool :=
  match fnExclude with
  | Some f => f a p
  | None => false
  end.

(** The kinds [toVariant] has no conversion for, with the name it logs. *)
Definition unsupportedKind (d : PropertyData) : option string :=
  match d with
  | PropertyCheckState _ => Some "PropertyCheckState"
  | PropertyOccPnt _ => Some "PropertyOccPnt"
  | PropertyOccTrsf _ => Some "PropertyOccTrsf"
  | _ => None
  end.



(** ** A small implementation of the collaborators

    Enough of Qt, [TKernelUtils] and [UnitSystem] to run the model on
    examples: a [QVariant] converts from its own shape and from text, colours
    read as [#RRGGBB], quantities read as an unsigned decimal integer followed
    by one of a few unit symbols, numbers print without their fractional part
    and a bounded integer property accepts 0 to 100. *)
Module Sample.

Definition isDigit (c : Ascii.ascii) : bool :=
  let n := Ascii.nat_of_ascii c in Nat.leb 48 n && Nat.leb n 57.

Definition digit (c : Ascii.ascii) : Z := Z.of_nat (Ascii.nat_of_ascii c) - 48.

(** The value of the leading digits, how many there are, and the rest. *)
Fixpoint digits (acc : Z) (count : nat) (s : string) : Z * nat * string :=
  match s with
  | String c s' => if isDigit c then digits (10 * acc + digit c) (S count) s'
                   else (acc, count, s)
  | EmptyString => (acc, count, s)
  end.

Definition hexDigit (c : Ascii.ascii) : option Z :=
  let n := Z.of_nat (Ascii.nat_of_ascii c) in
  if isDigit c then Some (n - 48)
  else if (97 <=? n) && (n <=? 102) then Some (n - 87)
  else if (65 <=? n) && (n <=? 70) then Some (n - 55)
  else None.

Definition hexByte (s : string) : option (Z * string) :=
  match s with
  | String h (String l rest) =>
      x ← hexDigit h; y ← hexDigit l; Some (16 * x + y, rest)
  | _ => None
  end.

Definition of_Z (z : Z) : float := PrimFloat.of_uint63 (Uint63.of_Z z).

Definition channel (z : Z) : float := PrimFloat.div (of_Z z) (of_Z 255).

Definition color_of_hex (s : string) : option Quantity_Color :=
  match s with
  | String c s1 =>
      if Nat.eqb (Ascii.nat_of_ascii c) 35 then
        '(r, s2) ← hexByte s1;
        '(g, s3) ← hexByte s2;
        '(b, s4) ← hexByte s3;
        if isEmpty s4
        then Some {| red := channel r; green := channel g; blue := channel b |}
        else None
      else None
  | EmptyString => None
  end.

(** The integer part of a finite float, 0 otherwise. *)
Definition trunc (f : float) : Z :=
  match Prim2SF f with
  | S754_finite sgn m e =>
      let v := if 0 <=? e then Z.pos m * 2 ^ e else Z.pos m / 2 ^ (- e) in
      if sgn then - v else v
  | _ => 0
  end.

Definition hexChar (z : Z) : Ascii.ascii :=
  Ascii.ascii_of_nat (Z.to_nat (if z <? 10 then 48 + z else 87 + z)).

Definition hex2 (z : Z) : string :=
  String (hexChar (z / 16)) (String (hexChar (z mod 16)) EmptyString).

Definition byteOf (f : float) : Z :=
  trunc (PrimFloat.add (PrimFloat.mul f (of_Z 255)) 0.5%float).

Definition hex_of_color (c : Quantity_Color) : string :=
  "#" +:+ hex2 (byteOf (red c)) +:+ hex2 (byteOf (green c)) +:+ hex2 (byteOf (blue c)).

Fixpoint decimal (fuel : nat) (z : Z) (acc : string) : string :=
  match fuel with
  | O => acc
  | S fuel' =>
      let acc' := String (hexChar (z mod 10)) acc in
      if z <? 10 then acc' else decimal fuel' (z / 10) acc'
  end.

Definition printZ (z : Z) : string :=
  if z <? 0 then "-" +:+ decimal 400 (- z) "" else decimal 400 z "".

(** Unit symbols: the unit, the factor to the internal unit, the symbol. *)
Definition symbols : list (string * (Unit * Z)) :=
  [("", (Unit_None, 1)); ("mm", (Unit_Length, 1)); ("cm", (Unit_Length, 10));
   ("m", (Unit_Length, 1000)); ("rad", (Unit_Angle, 1)); ("kg", (Unit_Mass, 1));
   ("s", (Unit_Time, 1))].

Definition parseFailed : TranslateResult * Unit :=
  ({| tr_value := 0%float; tr_factor := 0%float; strUnit := None |}, Unit_None).

Definition parse (s : string) : TranslateResult * Unit :=
  let '(n, count, rest) := digits 0 O s in
  match count, list_find (fun e => e.1 = rest) symbols with
  | S _, Some (_, (sym, (u, factor))) =>
      ({| tr_value := of_Z n; tr_factor := of_Z factor; strUnit := Some sym |}, u)
  | _, _ => parseFailed
  end.

Definition symbolOf (u : Unit) : string :=
  match u with
  | Unit_Length => "mm" | Unit_Angle => "rad" | Unit_Mass => "kg" | Unit_Time => "s"
  | _ => ""
  end.

Definition translate_SI (_ : Schema) (v : float) (u : Unit) : TranslateResult :=
  {| tr_value := v; tr_factor := 1%float; strUnit := Some (symbolOf u) |}.

Definition text (v : QVariant) : string :=
  match v with
  | QVariant_String s | QVariant_ByteArray s => s
  | QVariant_Bool b => if b then "true" else "false"
  | QVariant_Int i => printZ i
  | _ => ""
  end.

Definition bool_of (v : QVariant) : bool :=
  match v with
  | QVariant_Bool b => b
  | QVariant_Int i => negb (i =? 0)
  | QVariant_String s | QVariant_ByteArray s =>
      negb (bool_decide (s = "") || bool_decide (s = "0") || bool_decide (s = "false"))
  | _ => false
  end.

Definition int_of (v : QVariant) : Z :=
  match v with
  | QVariant_Int i => i
  | QVariant_Bool b => if b then 1 else 0
  | QVariant_Double d => trunc d
  | QVariant_String s | QVariant_ByteArray s =>
      let '(n, count, rest) := digits 0 O s in
      if isEmpty rest then n else 0
  | _ => 0
  end.

Definition double_of (v : QVariant) : float :=
  match v with
  | QVariant_Double d => d
  | _ => of_Z (int_of v)
  end.

Definition accepts (p : Property) (d : PropertyData) : bool :=
  match d with
  | PropertyInt v => (0 <=? v) && (v <=? 100)
  | _ => true
  end.

#[export] Instance collaborators : Collaborators := {|
  toBool := bool_of;
  toInt := int_of;
  toDouble := double_of;
  toByteArray := text;
  toString := text;
  toStringList := fun v => match v with QVariant_StringList l => l | _ => [text v] end;
  toDateTime := fun v => match v with QVariant_DateTime t => t | _ => 0 end;
  colorToHex := hex_of_color;
  colorFromHex := color_of_hex;
  translate := translate_SI;
  parseQuantity := parse;
  cpp_lib_to_chars := false;
  to_chars := fun _ _ => None;
  sstream_format := fun x _ => printZ (trunc x);
  isValid := accepts
|}.

(** Example properties. *)
Definition unitName : TextId := MAYO_TEXT_ID "Mayo::Export" "unit".

Definition lengthProp : Property :=
  {| name := MAYO_TEXT_ID "Mayo::Export" "length";
     data := BasePropertyQuantity Unit_Length 25%float |}.

Definition unitEnum : Enumeration.t :=
  [ {| Enumeration.value := 0; Enumeration.name := MAYO_TEXT_ID "Mayo::Unit" "mm" |};
    {| Enumeration.value := 1; Enumeration.name := MAYO_TEXT_ID "Mayo::Unit" "inch" |} ].

Definition enumProp : Property :=
  {| name := unitName; data := PropertyEnumeration unitEnum 0 |}.


Definition boolProp (k : string) (b : bool) : Property :=
  {| name := MAYO_TEXT_ID "Mayo::Export" k; data := PropertyBool b |}.

Definition checkProp : Property :=
  {| name := MAYO_TEXT_ID "Mayo::Export" "state"; data := PropertyCheckState Checked |}.

(** The registry with the one group [Export] and the properties at the
    given addresses added directly under it, in that order. *)
Definition exportRegistry (addrs : list nat) : Settings :=
  fold_left
    (fun s a => default s (snd <$> addSetting_Group (Some a) (mkGroupIndex 0) s))
    addrs
    (default Settings_new (snd <$> addGroup "Export" Settings_new)).


(** Two boolean properties with different keys. *)
Definition boolHeap : gmap nat Property :=
  <[0%nat := boolProp "a" true]> (<[1%nat := boolProp "b" false]> ∅).

(** A store that has the opposite value for both. *)
Definition boolStore : gmap string QVariant :=
  <["Export//a" := QVariant_Bool false]> (<["Export//b" := QVariant_Bool true]> ∅).


(** A predicate that only looks at the address of the reference it is
    given; a reference bound through a null pointer has none of the addresses
    it tests for. *)
Definition byAddress (test : nat -> bool) : Predicate :=
  {| holds := fun a _ => test a;
     on_absent := fun prop => Some (from_option test false prop) |}.

(** A predicate that reads the object; it excludes the boolean properties
    that are [true]. *)
Definition excludeTrue : Predicate :=
  {| holds := fun _ p => match data p with PropertyBool b => b | _ => false end;
     on_absent := fun _ => None |}.

(** The predicate that excludes the property at address 0. *)
Definition excludeFirst : ExcludePropertyPredicate :=
  Some (byAddress (fun a => Nat.eqb a 0)).

End Sample.

(** ** More of the registry *)

Definition set_grp_overridenTitle (title : QString) (g : Settings_Group) : Settings_Group :=
  {| grp_identifier := grp_identifier g; grp_overridenTitle := title;
     vecSection := vecSection g |}.

Definition set_sec_overridenTitle (title : QString) (c : Settings_Section) : Settings_Section :=
  {| sec_identifier := sec_identifier c; sec_overridenTitle := title;
     isDefault := isDefault c; vecSetting := vecSetting c |}.

(** [Settings::groupTitle]; [tr] is [TextId::tr], the translation of an
    identifier. *)
Definition groupTitle (tr : TextId -> QString) (s : Settings) (index : GroupIndex)
  : option QString :=
  g ← group s index;
  Some (if negb (isEmpty (grp_overridenTitle g)) then grp_overridenTitle g
        else tr (grp_identifier g)).

(** [Settings::setGroupTitle]. *)
Definition setGroupTitle (index : GroupIndex) (title : QString) (s : Settings)
  : option Settings :=
  g ← group s index;
  Some (put_group index (set_grp_overridenTitle title g) s).

(** [Settings::sectionTitle]. *)
Definition sectionTitle (tr : TextId -> QString) (s : Settings) (index : SectionIndex)
  : option QString :=
  c ← section s index;
  Some (if negb (isEmpty (sec_overridenTitle c)) then sec_overridenTitle c
        else tr (sec_identifier c)).

(** [Settings::setSectionTitle]. *)
Definition setSectionTitle (index : SectionIndex) (title : QString) (s : Settings)
  : option Settings :=
  c ← section s index;
  put_section index (set_sec_overridenTitle title c) s.

(** A loop over a vector that returns from the function at the first
    element for which the body returns; [i] is the position of the head of
    [l] in the vector. *)
Fixpoint find_from {A B} (body : nat -> A -> option B) (i : nat) (l : list A) : option B :=
  match l with
  | [] => None
  | x :: l' =>
      match body i x with
      | Some b => Some b
      | None => find_from body (S i) l'
      end
  end.

(** [Settings::findProperty]: the invalid index of the final [return {}] is
    [None]; the positions, differences of pointers, are narrowed to [int]. *)
Definition findProperty (s : Settings) (prop : option Addr) : option SettingIndex :=
  find_from (fun idGroup g =>
    find_from (fun idSection c =>
      find_from (fun idSetting t =>
        if decide (property t = prop) then
          Some (mkSettingIndex
                  (mkSectionIndex (mkGroupIndex (int_cast (Z.of_nat idGroup)))
                     (int_cast (Z.of_nat idSection)))
                  (int_cast (Z.of_nat idSetting)))
        else None)
      0%nat (vecSetting c))
    0%nat (vecSection g))
  0%nat (m_vecGroup s).


(** The calls that change a registry, and sequences of them. *)
Inductive Operation :=
| OpAddGroup (identifier : QByteArray)
| OpAddGroupTextId (identifier : TextId)
| OpSetGroupTitle (index : GroupIndex) (title : QString)
| OpAddSection (index : GroupIndex) (identifier : QByteArray)
| OpAddSectionTextId (index : GroupIndex) (identifier : TextId)
| OpSetSectionTitle (index : SectionIndex) (title : QString)
| OpAddSettingSection (prop : option Addr) (index : SectionIndex)
| OpAddSettingGroup (prop : option Addr) (index : GroupIndex)
| OpAddResetFunctionGroup (index : GroupIndex) (fn : ResetFunction)
| OpAddResetFunctionSection (index : SectionIndex) (fn : ResetFunction).

Definition perform (op : Operation) (s : Settings) : option Settings :=
  match op with
  | OpAddGroup identifier => snd <$> addGroup identifier s
  | OpAddGroupTextId identifier => snd <$> addGroup_TextId identifier s
  | OpSetGroupTitle index title => setGroupTitle index title s
  | OpAddSection index identifier => snd <$> addSection index identifier s
  | OpAddSectionTextId index identifier => snd <$> addSection_TextId index identifier s
  | OpSetSectionTitle index title => setSectionTitle index title s
  | OpAddSettingSection prop index => snd <$> addSetting_Section prop index s
  | OpAddSettingGroup prop index => snd <$> addSetting_Group prop index s
  | OpAddResetFunctionGroup index fn => Some (addResetFunction_Group index fn s)
  | OpAddResetFunctionSection index fn => Some (addResetFunction_Section index fn s)
  end.

Definition performAll (ops : list Operation) (s : Settings) : option Settings :=
  for_each perform ops s.

(** The entries [loadFrom] and [saveAs] visit for one group. *)
Definition group_paths (g : Settings_Group) : list (QString * option Addr) :=
  c ← vecSection g; t ← vecSetting c; [(sectionPath g c, property t)].

(** The entries visited for one section of a group of key [groupKey]. *)
Definition section_paths (groupKey : QByteArray) (c : Settings_Section)
  : list (QString * option Addr) :=
  t ← vecSetting c; [(groupKey +:+ "/" +:+ key (sec_identifier c), property t)].

(** At most [k] groups, each of at most [k + 1] sections. *)
Definition bounded (k : nat) (s : Settings) : Prop :=
  (length (m_vecGroup s) <= k)%nat /\
  Forall (fun g => (length (vecSection g) <= S k)%nat) (m_vecGroup s).

(** The sizes of the vectors fit in an [int]. *)
Definition int_sized (s : Settings) : Prop :=
  Z.of_nat (length (m_vecGroup s)) < 2 ^ 31 /\
  Forall (fun g =>
    Z.of_nat (length (vecSection g)) < 2 ^ 31 /\
    Forall (fun c => Z.of_nat (length (vecSetting c)) < 2 ^ 31) (vecSection g))
    (m_vecGroup s).

(** The shape of the tree in a registry built by the calls above: the first
    section of each group is its default section and has the empty
    identifier; every other section is not default and has a valid
    identifier. *)
Definition well_shaped_group (g : Settings_Group) : Prop :=
  exists c rest,
    vecSection g = c :: rest /\
    isDefault c = true /\ key (sec_identifier c) = "" /\
    Forall (fun c' => isDefault c' = false /\
                      isValidIdentifier (key (sec_identifier c')) = true) rest.

Definition well_shaped (s : Settings) : Prop :=
  Forall (fun g => isValidIdentifier (key (grp_identifier g)) = true /\
                   well_shaped_group g) (m_vecGroup s) /\
  NoDup (key ∘ grp_identifier <$> m_vecGroup s) /\
  callable_resets s.

(** Two property states of the same dynamic type, with the same enumeration
    or declared unit. *)
Definition same_kind (d d' : PropertyData) : Prop :=
  match d, d' with
  | PropertyBool _, PropertyBool _
  | PropertyInt _, PropertyInt _
  | PropertyDouble _, PropertyDouble _
  | PropertyCheckState _, PropertyCheckState _
  | PropertyQByteArray _, PropertyQByteArray _
  | PropertyQString _, PropertyQString _
  | PropertyQStringList _, PropertyQStringList _
  | PropertyQDateTime _, PropertyQDateTime _
  | PropertyOccPnt _, PropertyOccPnt _
  | PropertyOccTrsf _, PropertyOccTrsf _
  | PropertyOccColor _, PropertyOccColor _ => True
  | PropertyEnumeration e _, PropertyEnumeration e' _ => e = e'
  | BasePropertyQuantity u _, BasePropertyQuantity u' _ => u = u'
  | PropertyUnknown n, PropertyUnknown n' => n = n'
  | _, _ => False
  end.

(** The same property object, possibly with another value. *)
Definition same_property (p p' : Property) : Prop :=
  name p' = name p /\ same_kind (data p) (data p').

(** Whether a text has a slash. *)
Fixpoint has_slash (t : string) : bool :=
  match t with
  | EmptyString => false
  | String c t' => Nat.eqb (Ascii.nat_of_ascii c) 47 || has_slash t'
  end.


(** The lexicographic order of setting indices. *)
Definition SettingIndex_le (i j : SettingIndex) : Prop :=
  let gi := group_get (section_group (setting_section i)) in
  let gj := group_get (section_group (setting_section j)) in
  let ci := section_get (setting_section i) in
  let cj := section_get (setting_section j) in
  gi < gj \/ (gi = gj /\ (ci < cj \/ (ci = cj /\ setting_get i <= setting_get j))).

(** The conversion of the collaborators gives back what [toVariant] put
    into the variant: the payload of a variant of the shape the kind is
    written as, and for a colour the colour its hexadecimal text stands
    for. *)
Definition reads_back `{Collaborators} (d : PropertyData) : Prop :=
  match d with
  | PropertyBool v => toBool (QVariant_Bool v) = v
  | PropertyInt v => toInt (QVariant_Int v) = v
  | PropertyDouble v => toDouble (QVariant_Double v) = v
  | PropertyQByteArray v => toByteArray (QVariant_ByteArray v) = v
  | PropertyQString v => toString (QVariant_String v) = v
  | PropertyQStringList v => toStringList (QVariant_StringList v) = v
  | PropertyQDateTime v => toDateTime (QVariant_DateTime v) = v
  | PropertyOccColor c => colorFromHex (toString (QVariant_String (colorToHex c))) = Some c
  | _ => False
  end.

(** ** The language of the default locale *)

Definition isLower (c : Ascii.ascii) : bool :=
  let n := Ascii.nat_of_ascii c in Nat.leb 97 n && Nat.leb n 122.

(** [std::regex_match] of the whole of [s] against the expression
    [([a-z]+)_] of [rxLang]: one or more letters from [a] to [z], then an
    underscore, then the end.  The result is the first group. *)
Fixpoint regex_match_rxLang (s : string) : option string :=
  match s with
  | EmptyString => None
  | String c rest =>
      if isLower c then
        if bool_decide (rest = "_") then Some (String c EmptyString)
        else String c <$> regex_match_rxLang rest
      else None
  end.

(** [Settings::defautLocaleLanguageCode], as a function of the name of the
    default locale, [QLocale().name()]. *)
Definition defautLocaleLanguageCode (localeName : QByteArray) : QByteArray :=
  match regex_match_rxLang localeName with
  | Some lang => lang
  | None => "en"
  end.

(** ** The glTF writer *)

Module OccGltfWriter.

(** What [transfer] observes of an [ApplicationItem]: [isDocument()],
    [isDocumentTreeNode()], [document()] (a handle, possibly null) and
    [documentTreeNode().label()]. *)
Record ApplicationItem := {
  isDocument : bool;
  isDocumentTreeNode : bool;
  document : option nat;
  label : nat
}.

(** The members [transfer] works on. *)
Record t := { m_document : option nat; m_seqRootLabel : list nat }.

(** The body of the loop of [transfer]. *)
Definition transfer_item (w : t) (appItem : ApplicationItem) : t :=
  if isDocument appItem && bool_decide (m_document w = None) then
    {| m_document := document appItem; m_seqRootLabel := m_seqRootLabel w |}
  else if isDocumentTreeNode appItem then
    let w1 :=
      if bool_decide (m_document w = None)
      then {| m_document := document appItem; m_seqRootLabel := m_seqRootLabel w |}
      else w in
    if bool_decide (document appItem = m_document w1)
    then {| m_document := m_document w1;
            m_seqRootLabel := m_seqRootLabel w1 ++ [label appItem] |}
    else w1
  else w.

(** [OccGltfWriter::transfer]. *)
Definition transfer (spanAppItem : list ApplicationItem) (w : t) : bool * t :=
  let w0 := {| m_document := None; m_seqRootLabel := [] |} in
  let w1 := fold_left transfer_item spanAppItem w0 in
  (bool_decide (m_document w1 <> None), w1).

(** The items [transfer] looks at. *)
Definition relevant (appItem : ApplicationItem) : bool :=
  isDocument appItem || isDocumentTreeNode appItem.

End OccGltfWriter.

(** * Theorems *)

(** ** Conversion from a variant *)

Section ConversionFacts.

Context `{Collaborators}.







(** C3: a quantity property of declared unit [u] and value [v], given a
    variant whose text [parseQuantity] reads with a unit that is not
    [Unit_None] and is not [u]: [fromVariant] returns [false], the property
    still holds [v] (the whole object is as before) and no change was
    notified.  When the text parsed, the one event is the unit-mismatch
    diagnostic. *)
Theorem fromVariant_unit_mismatch (conv : PropertyValueConversion)
    (p : Property) (variant : QVariant) (u : Unit) (v : float)
    (trRes : TranslateResult) (unit : Unit) :
  data p = BasePropertyQuantity u v ->
  parseQuantity (toString variant) = (trRes, unit) ->
  unit <> Unit_None ->
  unit <> u ->
  let r := fromVariant conv (Some p) variant in
  r.1.1 = false /\ r.1.2 = Some p /\
  data <$> r.1.2 = Some (BasePropertyQuantity u v) /\
  (forall n, notifyChanged n ∉ r.2) /\
  (strUnit trRes <> None -> qFuzzyIsNull (tr_factor trRes) = false ->
   r.2 = [qCritical ("[property '" +:+ key (name p) +:+ "'] "
                     +:+ "fromVariant() unit mismatch with quantity string '"
                     +:+ toString variant +:+ "'")]).
Proof.
  intros Hdata Hparse Hnone Hdiff r. subst r. simpl.
  rewrite Hdata, Hparse.
  rewrite (bool_decide_eq_true_2 _ Hnone), (bool_decide_eq_true_2 _ Hdiff). simpl.
  destruct (bool_decide (strUnit trRes = None)) eqn:Hs;
    destruct (qFuzzyIsNull (tr_factor trRes)) eqn:Hf; simpl;
    (split; [done|split; [done|split; [by rewrite <- Hdata|split]]]);
    try (intros n Hin%list_elem_of_singleton; discriminate);
    try (intros Hsome Hfz; first [discriminate | by apply bool_decide_eq_true_1 in Hs]).
  done.
Qed.

End ConversionFacts.


(** The unit-mismatch rejection on an example: a length property holding 25
    and the text [10rad]. *)
Lemma fromVariant_unit_mismatch_witness :
  let r := fromVariant (H := Sample.collaborators) defaultPropValueConverter
             (Some Sample.lengthProp) (QVariant_String "10rad") in
  r.1.1 = false /\ r.1.2 = Some Sample.lengthProp /\
  data <$> r.1.2 = Some (BasePropertyQuantity Unit_Length 25%float) /\
  (forall n, notifyChanged n ∉ r.2) /\
  r.2 = [qCritical "[property 'length'] fromVariant() unit mismatch with quantity string '10rad'"].
Proof.
  destruct (fromVariant_unit_mismatch (H := Sample.collaborators)
              defaultPropValueConverter Sample.lengthProp
              (QVariant_String "10rad") Unit_Length 25%float
              (Sample.parse "10rad").1 Unit_Angle)
    as (H1 & H2 & H3 & H4 & H5);
    [reflexivity | vm_compute; reflexivity | discriminate | discriminate |].
  split; [exact H1|]. split; [exact H2|]. split; [exact H3|]. split; [exact H4|].
  apply H5; [discriminate | vm_compute; reflexivity].
Defined.

(** ** Indices and access *)

Lemma int_cast_small (n : Z) : - 2 ^ 31 <= n < 2 ^ 31 -> int_cast n = n.
Proof. intros Hn. unfold int_cast. rewrite Z.mod_small; lia. Qed.

Lemma int_cast_pred (n : Z) : int_cast (int_cast (n + 1) - 1) = int_cast n.
Proof.
  unfold int_cast. f_equal.
  replace ((n + 1 + 2 ^ 31) mod 2 ^ 32 - 2 ^ 31 - 1 + 2 ^ 31)
    with ((n + 1 + 2 ^ 31) mod 2 ^ 32 - 1) by lia.
  rewrite Zminus_mod_idemp_l. f_equal. lia.
Qed.

Lemma at_Some {A} (v : list A) (i : Z) (x : A) :
  at_ v i = Some x <-> 0 <= i /\ v !! Z.to_nat i = Some x.
Proof.
  unfold at_. case_decide as Hi; split.
  - by intros Hx.
  - by intros [_ Hx].
  - discriminate.
  - intros [Hi' _]. contradiction.
Qed.

Lemma at_of_nat {A} (v : list A) (k : nat) : at_ v (Z.of_nat k) = v !! k.
Proof. unfold at_. case_decide; [by rewrite Nat2Z.id | lia]. Qed.

Lemma group_put_group (s : Settings) (index : GroupIndex) (g g' : Settings_Group) :
  group s index = Some g -> group (put_group index g' s) index = Some g'.
Proof.
  unfold group, put_group. simpl. intros [Hi Hg]%at_Some.
  apply at_Some. split; [done|].
  apply list_lookup_insert_eq. by eapply lookup_lt_Some.
Qed.

Lemma put_group_put_group (s : Settings) (index : GroupIndex) (g1 g2 : Settings_Group) :
  put_group index g2 (put_group index g1 s) = put_group index g2 s.
Proof. unfold put_group, set_m_vecGroup. simpl. by rewrite list_insert_insert_eq. Qed.

Lemma m_vecGroup_put_group (s : Settings) (index : GroupIndex) (g : Settings_Group) :
  m_vecGroup (put_group index g s) = <[Z.to_nat (group_get index) := g]> (m_vecGroup s).
Proof. reflexivity. Qed.

(** ** Groups *)

(** The group [addGroup] creates for a new identifier. *)
Lemma addGroup_fresh (identifier : QByteArray) (s : Settings) :
  isValidIdentifier identifier = true ->
  list_find (fun g => key (grp_identifier g) = identifier) (m_vecGroup s) = None ->
  let c := set_isDefault true Settings_Section_init in
  let g := set_vecSection [c]
             (set_grp_identifier {| trContext := ""; key := identifier |}
                Settings_Group_init) in
  addGroup identifier s =
    Some (mkGroupIndex (int_cast (Z.of_nat (length (m_vecGroup s)))),
          set_m_vecGroup (m_vecGroup s ++ [g]) s).
Proof.
  intros Hvalid Hfind. unfold addGroup. rewrite Hvalid, Hfind. simpl.
  rewrite length_app, Nat2Z.inj_add. simpl. by rewrite int_cast_pred.
Qed.

(** The index [addGroup] returns for an identifier already present. *)
Lemma addGroup_existing (identifier : QByteArray) (s : Settings)
    (i : nat) (g : Settings_Group) :
  isValidIdentifier identifier = true ->
  list_find (fun g => key (grp_identifier g) = identifier) (m_vecGroup s) = Some (i, g) ->
  addGroup identifier s = Some (mkGroupIndex (int_cast (Z.of_nat i)), s).
Proof. intros Hvalid Hfind. unfold addGroup. by rewrite Hvalid, Hfind. Qed.

(** C2: for a valid identifier and any registry, [addGroup] ends normally and
    a second call returns the same index and changes nothing.  When a group
    of that identifier exists, the first call already changes nothing and
    returns the position of the first such group; otherwise it appends one
    group of that identifier whose only section is an empty section marked
    default, and touches nothing else. *)
Theorem addGroup_idempotent (identifier : QByteArray) (s : Settings) :
  isValidIdentifier identifier = true ->
  exists index s1,
    addGroup identifier s = Some (index, s1) /\
    addGroup identifier s1 = Some (index, s1) /\
    (forall g, g ∈ m_vecGroup s -> key (grp_identifier g) = identifier ->
       s1 = s /\
       exists (i : nat) g0,
         index = mkGroupIndex (int_cast (Z.of_nat i)) /\
         m_vecGroup s !! i = Some g0 /\ key (grp_identifier g0) = identifier /\
         forall (j : nat) gj, m_vecGroup s !! j = Some gj -> (j < i)%nat ->
           key (grp_identifier gj) <> identifier) /\
    ((forall g, g ∈ m_vecGroup s -> key (grp_identifier g) <> identifier) ->
       exists g c,
         m_vecGroup s1 = m_vecGroup s ++ [g] /\
         key (grp_identifier g) = identifier /\
         vecSection g = [c] /\ isDefault c = true /\ vecSetting c = [] /\
         m_settings s1 = m_settings s /\
         m_vecSectionResetFn s1 = m_vecSectionResetFn s /\
         m_propValueConverter s1 = m_propValueConverter s).
Proof.
  intros Hvalid.
  destruct (list_find (fun g => key (grp_identifier g) = identifier) (m_vecGroup s))
    as [[i g0]|] eqn:Hfind.
  - exists (mkGroupIndex (int_cast (Z.of_nat i))), s.
    rewrite (addGroup_existing _ _ _ _ Hvalid Hfind).
    apply list_find_Some in Hfind as (Hi & Hkey & Hfirst).
    split; [done|]. split; [done|]. split.
    + intros _ _ _. split; [done|]. exists i, g0. eauto.
    + intros Hnone. exfalso. eapply Hnone; [|exact Hkey].
      eapply list_elem_of_lookup_2, Hi.
  - rewrite (addGroup_fresh _ _ Hvalid Hfind).
    eexists _, _. split; [reflexivity|]. split; [|split].
    + unfold addGroup. rewrite Hvalid. simpl.
      rewrite (list_find_app_r _ _ _ Hfind). simpl.
      rewrite decide_True by done. simpl.
      reflexivity.
    + intros g Hin Hkey. exfalso.
      apply list_find_None in Hfind.
      rewrite Forall_forall in Hfind. by apply (Hfind g).
    + intros _. eexists _, _. repeat (split; [reflexivity|]). reflexivity.
Qed.

(** The same on an example: the identifier [Export] on the empty registry. *)
Lemma addGroup_idempotent_witness :
  exists index s1,
    addGroup "Export" Settings_new = Some (index, s1) /\
    addGroup "Export" s1 = Some (index, s1).
Proof.
  destruct (addGroup_idempotent "Export" Settings_new) as (index & s1 & H1 & H2 & _);
    [reflexivity|].
  exists index, s1. split; [exact H1 | exact H2].
Defined.

(** Group identifiers stay pairwise distinct under [addGroup]. *)
Lemma addGroup_keeps_groups_distinct (identifier : QByteArray) (s s1 : Settings)
    (index : GroupIndex) :
  NoDup (key ∘ grp_identifier <$> m_vecGroup s) ->
  addGroup identifier s = Some (index, s1) ->
  NoDup (key ∘ grp_identifier <$> m_vecGroup s1).
Proof.
  intros Hnodup. unfold addGroup.
  destruct (isValidIdentifier identifier); [|discriminate].
  destruct (list_find _ _) as [[i g0]|] eqn:Hfind; intros [= _ <-]; [done|].
  simpl. rewrite fmap_app. simpl.
  apply NoDup_app. split; [done|]. split; [|apply NoDup_singleton].
  intros k Hk Hk'%list_elem_of_singleton. subst k.
  apply list_elem_of_fmap in Hk as (g & Hkey & Hin).
  apply list_find_None in Hfind. rewrite Forall_forall in Hfind.
  by apply (Hfind g).
Qed.

(** ** Settings added directly under a group *)

(** What [addSetting(Property*, GroupIndex)] returns and does, in one
    equation: it always ends normally on an existing group, the setting goes
    to section 0, and that section is marked default. *)
Lemma addSetting_Group_eq (prop : option Addr) (groupId : GroupIndex) (s : Settings)
    (g : Settings_Group) :
  group s groupId = Some g ->
  let c0 := (default_section_of g).1 in
  let rest := (default_section_of g).2 in
  let v := vecSetting c0 ++ [{| property := prop |}] in
  addSetting_Group prop groupId s =
    Some (mkSettingIndex (mkSectionIndex groupId 0)
            (int_cast (int_cast (Z.of_nat (length v)) - 1)),
          put_group groupId
            (set_vecSection (set_vecSetting v (set_isDefault true c0) :: rest) g) s).
Proof.
  intros Hg. unfold addSetting_Group, default_section_of. rewrite Hg. simpl.
  destruct (vecSection g) as [|front tl] eqn:Hsec.
  - unfold addSection_TextId, addSection. simpl.
    rewrite Hg. simpl. rewrite Hsec. simpl.
    change (int_cast (int_cast 1 - 1)) with 0.
    unfold section, put_section, addSetting_Section, section, put_section. simpl.
    repeat (rewrite ?(group_put_group _ _ _ _ Hg), ?put_group_put_group; simpl).
    reflexivity.
  - destruct (isDefault front) eqn:Hdef; simpl.
    + unfold section, put_section, addSetting_Section, section, put_section. simpl.
      rewrite Hg. simpl. rewrite Hsec. simpl.
      repeat (rewrite ?(group_put_group _ _ _ _ Hg), ?put_group_put_group; simpl).
      reflexivity.
    + unfold section, put_section, addSetting_Section, section, put_section. simpl.
      repeat (rewrite ?(group_put_group _ _ _ _ Hg), ?put_group_put_group; simpl).
      reflexivity.
Qed.

(** The default section is section 0 of the group afterwards. *)
Lemma addSetting_Group_section0 (prop : option Addr) (groupId : GroupIndex)
    (s : Settings) (g : Settings_Group) :
  group s groupId = Some g ->
  exists index s2 g2 c2,
    addSetting_Group prop groupId s = Some (index, s2) /\
    setting_section index = mkSectionIndex groupId 0 /\
    s2 = put_group groupId g2 s /\
    group s2 groupId = Some g2 /\
    grp_identifier g2 = grp_identifier g /\
    vecSection g2 = c2 :: (default_section_of g).2 /\
    section s2 (mkSectionIndex groupId 0) = Some c2 /\
    isDefault c2 = true /\
    sec_identifier c2 = sec_identifier (default_section_of g).1 /\
    vecSetting c2 = vecSetting (default_section_of g).1 ++ [{| property := prop |}].
Proof.
  intros Hg. rewrite (addSetting_Group_eq prop _ _ _ Hg).
  eexists _, _, _, _. split; [reflexivity|]. split; [reflexivity|].
  split; [reflexivity|].
  assert (Hg2 := group_put_group s groupId g
    (set_vecSection
       (set_vecSetting
          (vecSetting (default_section_of g).1 ++ [{| property := prop |}])
          (set_isDefault true (default_section_of g).1)
        :: (default_section_of g).2) g) Hg).
  split; [exact Hg2|]. split; [reflexivity|]. split; [reflexivity|].
  split; [|by repeat split].
  unfold section. simpl. rewrite Hg2. reflexivity.
Qed.

Lemma section0_default_put_group (s : Settings) (index : GroupIndex)
    (g : Settings_Group) (c : Settings_Section) :
  section0_default s ->
  vecSection g !! 0%nat = Some c -> isDefault c = true ->
  section0_default (put_group index g s).
Proof.
  unfold section0_default. intros Hinv Hc Hdef.
  rewrite m_vecGroup_put_group. apply Forall_insert; eauto.
Qed.



(** The other ways to change the tree keep section 0 default as well. *)
Lemma addSection_keeps_section0 (index : GroupIndex) (identifier : QByteArray)
    (s s1 : Settings) (sectionIndex : SectionIndex) :
  section0_default s ->
  addSection index identifier s = Some (sectionIndex, s1) ->
  section0_default s1.
Proof.
  intros Hinv. unfold addSection.
  destruct (isValidIdentifier identifier); [|discriminate].
  destruct (group s index) as [g|] eqn:Hg; [|discriminate].
  simpl. intros [= _ <-].
  apply at_Some in Hg as [_ Hg].
  assert (Hall := Hinv). unfold section0_default in Hall.
  rewrite Forall_lookup in Hall.
  destruct (Hall _ _ Hg) as (c & Hc & Hdef).
  eapply section0_default_put_group; [done| |exact Hdef].
  simpl. by apply lookup_app_l_Some.
Qed.

Lemma addSetting_Section_keeps_section0 (prop : option Addr) (index : SectionIndex)
    (s s1 : Settings) (settingIndex : SettingIndex) :
  section0_default s ->
  addSetting_Section prop index s = Some (settingIndex, s1) ->
  section0_default s1.
Proof.
  intros Hinv. unfold addSetting_Section, section, put_section.
  destruct (group s (section_group index)) as [g|] eqn:Hg; [|discriminate].
  simpl. destruct (at_ (vecSection g) (section_get index)) as [c|] eqn:Hc;
    [|discriminate].
  simpl. intros [= _ <-].
  apply at_Some in Hg as [_ Hg]. apply at_Some in Hc as [_ Hc].
  assert (Hall := Hinv). unfold section0_default in Hall.
  rewrite Forall_lookup in Hall.
  destruct (Hall _ _ Hg) as (c0 & Hc0 & Hdef).
  destruct (decide (Z.to_nat (section_get index) = 0%nat)) as [Hz|Hz].
  - eapply section0_default_put_group with
      (c := set_vecSetting (vecSetting c ++ [{| property := prop |}]) c); [done| |].
    + simpl. rewrite Hz. apply list_lookup_insert_eq.
      apply lookup_lt_Some in Hc0. done.
    + simpl. rewrite Hz in Hc. congruence.
  - eapply section0_default_put_group; [done| |exact Hdef].
    simpl. by rewrite list_lookup_insert_ne.
Qed.

(** Group identifiers stay pairwise distinct under [addSection], and so after
    every sequence of [addGroup] and [addSection] calls on a new registry. *)
Lemma addSection_keeps_groups_distinct (index : GroupIndex) (identifier : QByteArray)
    (s s1 : Settings) (sectionIndex : SectionIndex) :
  NoDup (key ∘ grp_identifier <$> m_vecGroup s) ->
  addSection index identifier s = Some (sectionIndex, s1) ->
  NoDup (key ∘ grp_identifier <$> m_vecGroup s1).
Proof.
  intros Hnodup. unfold addSection.
  destruct (isValidIdentifier identifier); [|discriminate].
  destruct (group s index) as [g|] eqn:Hg; [|discriminate].
  simpl. intros [= _ <-]. apply at_Some in Hg as [_ Hg].
  rewrite m_vecGroup_put_group, list_fmap_insert. simpl.
  rewrite list_insert_id; [done|].
  by rewrite list_lookup_fmap, Hg.
Qed.

Lemma groups_distinct_after_calls (cs : list TreeCall) (s s1 : Settings) :
  NoDup (key ∘ grp_identifier <$> m_vecGroup s) ->
  runCalls cs s = Some s1 ->
  NoDup (key ∘ grp_identifier <$> m_vecGroup s1).
Proof.
  unfold runCalls. revert s. induction cs as [|c cs IH]; intros s Hnodup; simpl.
  - by intros [= <-].
  - destruct (runCall c s) as [s'|] eqn:Hcall; [|done]. simpl.
    apply IH. destruct c as [identifier|index identifier]; simpl in Hcall.
    + destruct (addGroup identifier s) as [[i s'']|] eqn:Hadd; [|done].
      injection Hcall as <-. by eapply addGroup_keeps_groups_distinct.
    + destruct (addSection index identifier s) as [[i s'']|] eqn:Hadd; [|done].
      injection Hcall as <-. by eapply addSection_keeps_groups_distinct.
Qed.

(** ** Section identifiers *)

(** C7, the part the code does not ensure: the sequence [addGroup] of [g],
    [addSection] of [s] on that group and again [addSection] of [s] on that
    group, all with valid identifiers, ends normally on a new registry and
    leaves two different sections of the group with the same identifier. *)
Theorem addSection_duplicate_identifier :
  isValidIdentifier "g" = true /\ isValidIdentifier "s" = true /\
  exists s3 a b,
    runCalls [CallAddGroup "g"; CallAddSection (mkGroupIndex 0) "s";
              CallAddSection (mkGroupIndex 0) "s"] Settings_new = Some s3 /\
    section_group a = mkGroupIndex 0 /\ section_group b = mkGroupIndex 0 /\
    a <> b /\
    sectionIdentifier s3 a = Some "s" /\
    sectionIdentifier s3 b = Some "s".
Proof.
  split; [reflexivity|]. split; [reflexivity|].
  eexists _, (mkSectionIndex (mkGroupIndex 0) 1), (mkSectionIndex (mkGroupIndex 0) 2).
  split; [vm_compute; reflexivity|].
  split; [reflexivity|]. split; [reflexivity|].
  split; [discriminate|].
  split; vm_compute; reflexivity.
Qed.

(** ** Loops *)

Lemma for_each_app {A S} (body : A -> S -> option S) (l1 l2 : list A) (st : S) :
  for_each body (l1 ++ l2) st = for_each body l1 st ≫= for_each body l2.
Proof.
  revert st. induction l1 as [|x l1 IH]; intros st; simpl; [done|].
  destruct (body x st) as [st'|]; simpl; [apply IH | done].
Qed.

Lemma for_each_ext {A S} (body1 body2 : A -> S -> option S) (l : list A) (st : S) :
  (forall x st, body1 x st = body2 x st) ->
  for_each body1 l st = for_each body2 l st.
Proof.
  intros Hext. revert st. induction l as [|x l IH]; intros st; simpl; [done|].
  rewrite Hext. destruct (body2 x st); simpl; [apply IH | done].
Qed.

Lemma for_each_bind {A B S} (f : A -> list B) (body : B -> S -> option S)
    (l : list A) (st : S) :
  for_each (fun x => for_each body (f x)) l st = for_each body (l ≫= f) st.
Proof.
  revert st. induction l as [|x l IH]; intros st; simpl; [done|].
  rewrite for_each_app.
  destruct (for_each body (f x) st) as [st'|]; simpl; [apply IH | done].
Qed.

Lemma for_each_singleton {A S} (body : A -> S -> option S) (x : A) (st : S) :
  for_each body [x] st = body x st.
Proof. simpl. by destruct (body x st). Qed.

(** Three nested loops visit the elements of the innermost lists in order. *)
Lemma for_each_nested {G C T E S} (secs : G -> list C) (sets : C -> list T)
    (h : G -> C -> T -> E) (visit : E -> S -> option S) (gs : list G) (st : S) :
  for_each (fun g =>
    for_each (fun c => for_each (fun t => visit (h g c t)) (sets c)) (secs g)) gs st
  = for_each visit (g ← gs; c ← secs g; t ← sets c; [h g c t]) st.
Proof.
  rewrite <- for_each_bind. apply for_each_ext. intros g st1.
  rewrite <- for_each_bind. apply for_each_ext. intros c st2.
  rewrite <- for_each_bind. apply for_each_ext. intros t st3.
  by rewrite for_each_singleton.
Qed.

(** ** Persistence *)

Section PersistenceFacts.

Context `{Collaborators}.

#[local] Arguments fromVariant : simpl never.
#[local] Arguments toVariant : simpl never.

Lemma loadFrom_flat (s : Settings) (source : gmap string QVariant)
    (fnExclude : ExcludePropertyPredicate) (st : gmap nat Property * list Event) :
  loadFrom s source fnExclude st
  = for_each (load_visit s source fnExclude) (settings_paths s) st.
Proof.
  exact (for_each_nested vecSection vecSetting
           (fun g c t => (sectionPath g c, property t))
           (load_visit s source fnExclude) (m_vecGroup s) st).
Qed.

Lemma saveAs_flat (s : Settings) (heap : gmap nat Property)
    (store : gmap string QVariant) (fnExclude : ExcludePropertyPredicate) :
  saveAs s heap (Some store) fnExclude
  = '(store', evs) ← for_each (save_visit s heap fnExclude) (settings_paths s) (store, []);
    Some (Some store', evs).
Proof.
  unfold saveAs.
  by rewrite <- (for_each_nested vecSection vecSetting
           (fun g c t => (sectionPath g c, property t))
           (save_visit s heap fnExclude) (m_vecGroup s) (store, [])).
Qed.



Lemma notExcluded_live (fnExclude : ExcludePropertyPredicate) (a : nat)
    (p : Property) (heap : gmap nat Property) :
  heap !! a = Some p ->
  notExcluded fnExclude (Some a) heap = Some (negb (excludes fnExclude a p)).
Proof.
  intros Ha. unfold notExcluded, excludes.
  destruct fnExclude as [f|]; simpl; [by rewrite Ha | done].
Qed.





(** [fromVariant] on a non-null pointer gives that pointer back. *)
Lemma fromVariant_Some (conv : PropertyValueConversion) (p : Property) (v : QVariant) :
  exists p', (fromVariant conv (Some p) v).1.2 = Some p'.
Proof.
  unfold fromVariant.
  match goal with
  | |- context [match ?x with (_, _) => _ end] => destruct x as [[ok p'] evs]
  end.
  by exists p'.
Qed.

(** One visit of [loadFrom]: the object at an address is as before, unless
    the visit is to that very address, the property is not excluded and the
    source has its path; then the object is what [fromVariant] made of it. *)
Lemma load_visit_inv (s : Settings) (source : gmap string QVariant)
    (fnExclude : ExcludePropertyPredicate) (sp : QString) (prop : option Addr)
    (st st' : gmap nat Property * list Event) :
  load_visit s source fnExclude (sp, prop) st = Some st' ->
  forall a,
    st'.1 !! a = st.1 !! a \/
    (prop = Some a /\ exists p,
       st.1 !! a = Some p /\ excludes fnExclude a p = false /\
       contains source (settingPath sp p) = true /\
       st'.1 !! a =
         (fromVariant (m_propValueConverter s) (Some p)
            (value source (settingPath sp p))).1.2).
Proof.
  unfold load_visit. simpl. intros Hvisit a.
  destruct (notExcluded fnExclude prop st.1) as [[|]|] eqn:Hnot;
    simpl in Hvisit; [|injection Hvisit as <-; by left|done].
  unfold loadPropertyFrom in Hvisit.
  destruct prop as [a'|]; [|injection Hvisit as <-; by left].
  destruct (st.1 !! a') as [p|] eqn:Hp; [|done]. simpl in Hvisit.
  fold (settingPath sp p) in Hvisit.
  destruct (contains source (settingPath sp p)) eqn:Hcontains;
    [|injection Hvisit as <-; by left].
  destruct (fromVariant_Some (m_propValueConverter s) p
              (value source (settingPath sp p))) as [p' Hp'].
  destruct (fromVariant (m_propValueConverter s) (Some p)
              (value source (settingPath sp p))) as [[ok r] evs] eqn:Hfv.
  simpl in Hp'. subst r.
  injection Hvisit as <-. simpl.
  destruct (decide (a' = a)) as [->|Hne].
  - right. split; [done|]. exists p. split; [done|]. split.
    + rewrite (notExcluded_live _ _ _ _ Hp) in Hnot.
      injection Hnot as Hnot. by destruct (excludes fnExclude a p).
    + split; [done|]. rewrite Hfv. simpl. by rewrite lookup_insert_eq.
  - left. by rewrite lookup_insert_ne.
Qed.

(** A visit to a live property ends normally and keeps every address live. *)
Lemma load_visit_total (s : Settings) (source : gmap string QVariant)
    (fnExclude : ExcludePropertyPredicate) (sp : QString) (a : nat)
    (st : gmap nat Property * list Event) :
  is_Some (st.1 !! a) ->
  exists st', load_visit s source fnExclude (sp, Some a) st = Some st' /\
    forall b, is_Some (st.1 !! b) -> is_Some (st'.1 !! b).
Proof.
  intros [p Hp]. unfold load_visit. simpl.
  rewrite (notExcluded_live _ _ _ _ Hp). simpl.
  destruct (excludes fnExclude a p); simpl; [by exists st|].
  rewrite Hp. simpl.
  destruct (contains source _); [|by exists st].
  destruct (fromVariant _ _ _) as [[ok r] evs].
  eexists. split; [reflexivity|]. simpl. intros b Hb.
  destruct r as [q|]; simpl; [|done].
  destruct (decide (a = b)) as [->|Hne].
  - rewrite lookup_insert_eq. eauto.
  - by rewrite lookup_insert_ne.
Qed.

Lemma load_total (s : Settings) (source : gmap string QVariant)
    (fnExclude : ExcludePropertyPredicate) (heap : gmap nat Property)
    (l : list (QString * option Addr)) :
  Forall (fun e => exists a, e.2 = Some a /\ is_Some (heap !! a)) l ->
  forall st, (forall b, is_Some (heap !! b) -> is_Some (st.1 !! b)) ->
    exists st', for_each (load_visit s source fnExclude) l st = Some st'.
Proof.
  induction 1 as [|[sp prop] l (a & Hprop & Ha) _ IH]; intros st Hst; simpl.
  - by exists st.
  - simpl in Hprop. subst prop.
    destruct (load_visit_total s source fnExclude sp a st (Hst _ Ha))
      as (st1 & -> & Hkeep).
    simpl. apply IH. intros b Hb. by apply Hkeep, Hst.
Qed.


(** Visits to other addresses leave the object at [a] as it is. *)
Lemma load_frame (s : Settings) (source : gmap string QVariant)
    (fnExclude : ExcludePropertyPredicate) (a : nat)
    (l : list (QString * option Addr)) :
  Forall (fun e => e.2 <> Some a) l ->
  forall st st',
    for_each (load_visit s source fnExclude) l st = Some st' ->
    st'.1 !! a = st.1 !! a.
Proof.
  induction 1 as [|[sp prop] l Hprop _ IH]; intros st st'; simpl.
  - by intros [= <-].
  - destruct (load_visit s source fnExclude (sp, prop) st) as [st1|] eqn:Hvisit;
      [|done].
    simpl. intros Hrun. rewrite (IH _ _ Hrun).
    destruct (load_visit_inv _ _ _ _ _ _ _ Hvisit a) as [Hsame|(Heq & _)];
      [done|]. simpl in Hprop. contradiction.
Qed.

(** A property registered once and not excluded is converted from the entry
    of the source at its path, when there is one. *)
Lemma load_processed (s : Settings) (source : gmap string QVariant)
    (fnExclude : ExcludePropertyPredicate) (a : nat) (p : Property) (sp : QString)
    (l1 l2 : list (QString * option Addr)) :
  Forall (fun e => e.2 <> Some a) (l1 ++ l2) ->
  excludes fnExclude a p = false ->
  forall st st',
    st.1 !! a = Some p ->
    for_each (load_visit s source fnExclude) (l1 ++ (sp, Some a) :: l2) st = Some st' ->
    st'.1 !! a =
      if contains source (settingPath sp p)
      then (fromVariant (m_propValueConverter s) (Some p)
              (value source (settingPath sp p))).1.2
      else Some p.
Proof.
  intros [Hl1 Hl2]%Forall_app Hex st st' Hp. rewrite for_each_app.
  destruct (for_each _ l1 st) as [st1|] eqn:Hrun1; [|done]. simpl.
  destruct (load_visit s source fnExclude (sp, Some a) st1) as [st2|] eqn:Hvisit;
    [|done].
  simpl. intros Hrun2.
  rewrite (load_frame _ _ _ _ _ Hl2 _ _ Hrun2).
  assert (Hp1 : st1.1 !! a = Some p) by (by rewrite (load_frame _ _ _ _ _ Hl1 _ _ Hrun1)).
  destruct (load_visit_inv _ _ _ _ _ _ _ Hvisit a)
    as [Hsame|(_ & q & Hq & _ & Hcontains & Hres)].
  - (* the visit changed nothing: the source has no entry at the path *)
    revert Hvisit. unfold load_visit. simpl.
    rewrite (notExcluded_live _ _ _ _ Hp1), Hex. simpl. rewrite Hp1. simpl.
    fold (settingPath sp p).
    destruct (contains source (settingPath sp p)); [|by rewrite Hsame].
    destruct (fromVariant_Some (m_propValueConverter s) p
                (value source (settingPath sp p))) as [p' Hp'].
    destruct (fromVariant (m_propValueConverter s) (Some p)
                (value source (settingPath sp p))) as [[ok r] evs] eqn:Hfv.
    simpl in Hp'. subst r.
    intros [= <-]. simpl. by rewrite lookup_insert_eq.
  - rewrite Hp1 in Hq. injection Hq as <-. by rewrite Hcontains.
Qed.





End PersistenceFacts.







(** ** Reset functions *)

Lemma reset_loop (P : SectionResetFunction -> Prop) `{forall r, Decision (P r)}
    (v : list SectionResetFunction) (evs : list Event) :
  Forall (fun r => is_Some (fnReset r)) v ->
  for_each (fun r evs => if decide (P r) then call (fnReset r) evs else Some evs) v evs
  = Some (evs ++ invocations_of (filter P v)).
Proof.
  intros Hv. revert evs.
  induction Hv as [|r v [f Hf] _ IH]; intros evs; simpl.
  - by rewrite app_nil_r.
  - rewrite filter_cons. destruct (decide (P r)); simpl.
    + rewrite Hf. simpl. rewrite IH. unfold invocations_of. simpl.
      by rewrite <- app_assoc.
    + apply IH.
Qed.

Lemma resetGroup_eq (index : GroupIndex) (s : Settings) :
  callable_resets s ->
  resetGroup index s =
    Some (invocations_of
            (filter (fun r => section_group (sectionId r) = index)
               (m_vecSectionResetFn s))).
Proof.
  intros Hs. unfold resetGroup.
  exact (reset_loop (fun r => section_group (sectionId r) = index) _ [] Hs).
Qed.

Lemma resetSection_eq (index : SectionIndex) (s : Settings) :
  callable_resets s ->
  resetSection index s =
    Some (invocations_of
            (filter (fun r => sectionId r = index) (m_vecSectionResetFn s))).
Proof.
  intros Hs. unfold resetSection.
  exact (reset_loop (fun r => sectionId r = index) _ [] Hs).
Qed.

Lemma resetAll_eq (s : Settings) :
  callable_resets s ->
  resetAll s = Some (invocations_of (m_vecSectionResetFn s)).
Proof.
  intros Hs. unfold resetAll.
  rewrite (for_each_ext _
             (fun r evs => if decide (True) then call (fnReset r) evs else Some evs)).
  - rewrite (reset_loop (fun _ => True) _ [] Hs). simpl.
    f_equal. f_equal. clear Hs. induction (m_vecSectionResetFn s) as [|r v IH]; [done|].
    rewrite filter_cons. simpl. by rewrite IH.
  - intros r evs. done.
Qed.

Lemma register_resets (r : Registration) (s : Settings) :
  m_vecSectionResetFn (register r s)
  = m_vecSectionResetFn s ++ option_list (record_of r).
Proof.
  destruct r as [index [f|]|index [f|]]; simpl; by rewrite ?app_nil_r.
Qed.

Lemma registerAll_resets (rs : list Registration) (s : Settings) :
  m_vecSectionResetFn (registerAll rs s)
  = m_vecSectionResetFn s ++ omap record_of rs.
Proof.
  revert s. induction rs as [|r rs IH]; intros s; simpl.
  - by rewrite app_nil_r.
  - unfold registerAll in IH. rewrite IH, register_resets, <- app_assoc.
    f_equal. by destruct (record_of r).
Qed.

Lemma record_of_callable (rs : list Registration) :
  Forall (fun r => is_Some (fnReset r)) (omap record_of rs).
Proof.
  induction rs as [|r rs IH]; simpl; [done|].
  destruct r as [index [f|]|index [f|]]; simpl; try done;
    apply Forall_cons; split; simpl; eauto.
Qed.

Lemma invocations_of_app (v1 v2 : list SectionResetFunction) :
  invocations_of (v1 ++ v2) = invocations_of v1 ++ invocations_of v2.
Proof. unfold invocations_of. apply omap_app. Qed.

Lemma invocations_of_records (rs : list Registration) :
  invocations_of (omap record_of rs) = invocations rs.
Proof.
  induction rs as [|r rs IH]; simpl; [done|].
  unfold invocations_of, invocations in *.
  destruct r as [index [f|]|index [f|]]; simpl;
    first [exact IH | f_equal; exact IH].
Qed.

Lemma records_bound (g : GroupIndex) (rs : list Registration) :
  filter (fun r => section_group (sectionId r) = g) (omap record_of rs)
  = omap record_of (filter (fun r => bound_group r = g) rs).
Proof.
  induction rs as [|r rs IH]; simpl; [done|].
  rewrite (filter_cons (fun r => bound_group r = g)).
  destruct r as [index [f|]|index [f|]]; simpl;
    rewrite ?filter_cons; simpl; case_decide; simpl;
    first [exact IH | f_equal; exact IH].
Qed.

(** C9: in a registry whose reset functions are all callable, as
    [addResetFunction] keeps it, [resetGroup] of a group calls the
    registered functions bound to a section of that group, each once and in
    the order of registration, and no other; [resetAll] calls all of them.
    After any further registrations the calls of [resetGroup] are those and
    the non-empty functions registered for the group itself or for one of
    its sections, and no function registered for another group. *)
Theorem resetGroup_invokes_exactly (rs : list Registration) (s : Settings)
    (g : GroupIndex) :
  callable_resets s ->
  resetGroup g s =
    Some (invocations_of
            (filter (fun r => section_group (sectionId r) = g)
               (m_vecSectionResetFn s))) /\
  resetAll s = Some (invocations_of (m_vecSectionResetFn s)) /\
  callable_resets (registerAll rs s) /\
  resetGroup g (registerAll rs s) =
    Some (invocations_of
            (filter (fun r => section_group (sectionId r) = g)
               (m_vecSectionResetFn s))
          ++ invocations (filter (fun r => bound_group r = g) rs)) /\
  resetAll (registerAll rs s) =
    Some (invocations_of (m_vecSectionResetFn s) ++ invocations rs).
Proof.
  intros Hs.
  assert (Hrs : callable_resets (registerAll rs s)).
  { unfold callable_resets. rewrite registerAll_resets.
    apply Forall_app. split; [exact Hs | apply record_of_callable]. }
  split; [by apply resetGroup_eq|]. split; [by apply resetAll_eq|].
  split; [exact Hrs|]. split.
  - rewrite (resetGroup_eq _ _ Hrs), registerAll_resets.
    by rewrite filter_app, invocations_of_app, records_bound, invocations_of_records.
  - rewrite (resetAll_eq _ Hrs), registerAll_resets.
    by rewrite invocations_of_app, invocations_of_records.
Qed.

(** The same on an example: three functions, for group 0, for section 2 of group
    0 and for group 1, and an empty one for group 0. *)
Lemma resetGroup_invokes_exactly_witness :
  let rs := [ViaGroup (mkGroupIndex 0) (Some 10%nat);
             ViaGroup (mkGroupIndex 1) (Some 11%nat);
             ViaSection (mkSectionIndex (mkGroupIndex 0) 2) (Some 12%nat);
             ViaGroup (mkGroupIndex 0) None] in
  resetGroup (mkGroupIndex 0) (registerAll rs Settings_new)
    = Some [invoke 10%nat; invoke 12%nat] /\
  resetAll (registerAll rs Settings_new)
    = Some [invoke 10%nat; invoke 11%nat; invoke 12%nat].
Proof.
  intros rs.
  destruct (resetGroup_invokes_exactly rs Settings_new (mkGroupIndex 0))
    as (_ & _ & _ & Hgroup & Hall).
  - apply Forall_nil_2.
  - split; [exact Hgroup | exact Hall].
Defined.

(** ** Saving to a null target *)

(** C10: [saveAs] called with a null target returns at once, for every
    registry, every state of the property objects and every exclude
    predicate: it ends normally, the target is still null, and no event was
    produced, so no [QSettings::setValue] call, no conversion diagnostic and
    no error report. *)
Theorem saveAs_null_target `{Collaborators} (s : Settings) (heap : gmap nat Property)
    (fnExclude : ExcludePropertyPredicate) :
  saveAs s heap None fnExclude = Some (None, []).
Proof. reflexivity. Qed.

(** * Further properties *)

(** ** Identifiers *)

Lemma simplified_from_isEmpty (emitted pending : bool) (s : string) :
  isEmpty (simplified_from emitted pending s)
  = forallb isSpace (String.list_ascii_of_string s).
Proof.
  revert emitted pending. induction s as [|c s IH]; intros emitted pending; simpl.
  - reflexivity.
  - destruct (isSpace c); simpl; [apply IH|]. by destruct pending.
Qed.

(** X1: an identifier is valid exactly when it has a character that is not
    a space character; the empty and the all-space identifiers are the
    invalid ones. *)
Theorem isValidIdentifier_iff (identifier : QByteArray) :
  isValidIdentifier identifier = true <->
  Exists (fun c => isSpace c = false) (String.list_ascii_of_string identifier).
Proof.
  unfold isValidIdentifier, simplified. rewrite simplified_from_isEmpty.
  induction identifier as [|c s IH]; simpl.
  - split; [discriminate | intros Hex; inversion Hex].
  - destruct (isSpace c) eqn:Hc; simpl.
    + rewrite Exists_cons. split.
      * intros Hs. right. apply IH.
        destruct s; [discriminate|]. exact Hs.
      * intros [Hc'|Hs]; [congruence|].
        apply IH in Hs. destruct s; [discriminate|]. exact Hs.
    + split; [|done]. intros _. by left.
Qed.

(** ** The language of the default locale *)

Lemma regex_match_rxLang_shape (name lang : string) :
  regex_match_rxLang name = Some lang ->
  lang <> "" /\
  Forall (fun c => isLower c = true) (String.list_ascii_of_string lang) /\
  name = lang +:+ "_".
Proof.
  revert lang. induction name as [|c rest IH]; intros lang; simpl; [discriminate|].
  destruct (isLower c) eqn:Hc; [|discriminate].
  case_bool_decide as Hrest.
  - intros [= <-]. split; [done|]. split; [by apply Forall_singleton|].
    by rewrite Hrest.
  - destruct (regex_match_rxLang rest) as [l|]; [|discriminate].
    simpl. intros [= <-]. destruct (IH l eq_refl) as (_ & Hlower & ->).
    split; [done|]. split; [|done]. simpl. by apply Forall_cons.
Qed.

Lemma append_underscore_inj (a b : string) : a +:+ "_" = b +:+ "_" -> a = b.
Proof.
  assert (Hnil : forall x, "" +:+ x = x) by reflexivity.
  assert (Hcons : forall c a x, String c a +:+ x = String c (a +:+ x)) by reflexivity.
  revert b. induction a as [|c a IH]; intros [|c' b]; rewrite ?Hnil, ?Hcons.
  - done.
  - intros [= <- Heq]. by destruct b.
  - intros [= -> Heq]. by destruct a.
  - intros [= -> Heq]. by rewrite (IH b Heq).
Qed.

Lemma regex_match_rxLang_lower (lang : string) :
  lang <> "" ->
  Forall (fun c => isLower c = true) (String.list_ascii_of_string lang) ->
  regex_match_rxLang (lang +:+ "_") = Some lang.
Proof.
  induction lang as [|c rest IH]; intros Hne Hlower; [done|]. simpl in *.
  apply Forall_cons in Hlower as [-> Hrest].
  destruct rest as [|c' rest'].
  - simpl. reflexivity.
  - rewrite bool_decide_eq_false_2.
    + rewrite IH; [done|done|exact Hrest].
    + simpl. intros [= _ Habs]. by destruct rest'.
Qed.

Lemma regex_match_rxLang_country (lang country : string) :
  country <> "" -> regex_match_rxLang (lang +:+ "_" +:+ country) = None.
Proof.
  intros Hcountry. induction lang as [|c rest IH]; simpl.
  - reflexivity.
  - destruct (isLower c); [|done].
    rewrite bool_decide_eq_false_2.
    + by rewrite IH.
    + destruct rest as [|c' rest']; simpl.
      * intros [= Habs]. done.
      * intros [= _ Habs]. by destruct rest'.
Qed.

(** X2: the language code of the default locale is the name of the locale
    without its last character when the name is one or more lowercase
    letters from [a] to [z] followed by one underscore and nothing else; for
    every other name it is [en].  In particular a name with something after
    the underscore, as in [fr_FR], gives [en], and so does a name with
    another character before the underscore, as in [FR_]. *)
Theorem defautLocaleLanguageCode_spec :
  (forall lang,
     lang <> "" ->
     Forall (fun c => isLower c = true) (String.list_ascii_of_string lang) ->
     defautLocaleLanguageCode (lang +:+ "_") = lang) /\
  (forall name,
     (forall lang,
        lang <> "" ->
        Forall (fun c => isLower c = true) (String.list_ascii_of_string lang) ->
        name <> lang +:+ "_") ->
     defautLocaleLanguageCode name = "en") /\
  (forall lang country,
     country <> "" ->
     defautLocaleLanguageCode (lang +:+ "_" +:+ country) = "en") /\
  (forall lang c,
     c ∈ String.list_ascii_of_string lang -> isLower c = false ->
     defautLocaleLanguageCode (lang +:+ "_") = "en").
Proof.
  assert (Hother : forall name,
            (forall lang,
               lang <> "" ->
               Forall (fun c => isLower c = true) (String.list_ascii_of_string lang) ->
               name <> lang +:+ "_") ->
            defautLocaleLanguageCode name = "en").
  { intros name Hshape. unfold defautLocaleLanguageCode.
    destruct (regex_match_rxLang name) as [lang|] eqn:Hm; [|done].
    apply regex_match_rxLang_shape in Hm as (Hne & Hlower & Hname).
    by destruct (Hshape lang Hne Hlower). }
  split; [|split; [exact Hother|split]].
  - intros lang Hne Hlower. unfold defautLocaleLanguageCode.
    by rewrite regex_match_rxLang_lower.
  - intros lang country Hcountry. unfold defautLocaleLanguageCode.
    by rewrite regex_match_rxLang_country.
  - intros lang c Hin Hc. apply Hother. intros lang' _ Hlower Heq.
    apply append_underscore_inj in Heq as <-.
    rewrite Forall_forall in Hlower. specialize (Hlower c Hin). congruence.
Qed.

(** The same on examples: the names [fr_], [fr_FR], [FR_] and [C]. *)
Lemma defautLocaleLanguageCode_spec_witness :
  defautLocaleLanguageCode "fr_" = "fr" /\ defautLocaleLanguageCode "fr_FR" = "en" /\
  defautLocaleLanguageCode "FR_" = "en" /\ defautLocaleLanguageCode "C" = "en".
Proof.
  destruct defautLocaleLanguageCode_spec as (Hlang & Hother & Hcountry & Hupper).
  split; [|split; [|split]].
  - apply (Hlang "fr"); [discriminate|]. repeat constructor.
  - apply (Hcountry "fr" "FR"). discriminate.
  - apply (Hupper "FR" (Ascii.ascii_of_nat 70)); [apply list_elem_of_here | reflexivity].
  - apply Hother. intros [|c [|c' lang]] Hne _; [done| |]; discriminate.
Defined.

(** ** Conversion there and back *)

Section ConversionRoundTrip.

Context `{Collaborators}.

Lemma setValue_keeps_kind (p : Property) (d : PropertyData) :
  same_kind (data p) d ->
  name (setValue p d).1.2 = name p /\ same_kind (data p) (data (setValue p d).1.2).
Proof.
  intros Hkind. unfold setValue. destruct (isValid p d); simpl; [done|].
  split; [done|]. by destruct (data p).
Qed.

Lemma fromVariant_same_property (conv : PropertyValueConversion) (p : Property)
    (variant : QVariant) :
  exists p',
    (fromVariant conv (Some p) variant).1.2 = Some p' /\
    name p' = name p /\ same_kind (data p) (data p').
Proof.
  assert (Hself : same_kind (data p) (data p)) by (by destruct (data p)).
  unfold fromVariant.
  destruct (data p) eqn:Hdata;
    try (match goal with
         | |- context [setValue p ?d] =>
             destruct (setValue_keeps_kind p d) as [Hn Hk]; [by rewrite Hdata|];
             rewrite Hdata in Hk;
             destruct (setValue p d) as [[ok p'] evs]; by exists p'
         end);
    try (exists p; simpl; by rewrite Hdata).
  - destruct (colorFromHex _) as [color|]; [|exists p; simpl; by rewrite Hdata].
    destruct (setValue_keeps_kind p (PropertyOccColor color)) as [Hn Hk];
      [by rewrite Hdata|].
    rewrite Hdata in Hk.
    destruct (setValue p _) as [[ok p'] evs]. by exists p'.
  - destruct (Enumeration.findItem _ _) as [item|]; [|exists p; simpl; by rewrite Hdata].
    destruct (setValue_keeps_kind p
                (PropertyEnumeration enumeration (Enumeration.value item))) as [Hn Hk];
      [by rewrite Hdata|].
    rewrite Hdata in Hk.
    destruct (setValue p _) as [[ok p'] evs]. by exists p'.
  - destruct (parseQuantity _) as [trRes unit].
    destruct (_ || _); [exists p; simpl; by rewrite Hdata|].
    destruct (_ && _); [exists p; simpl; by rewrite Hdata|].
    destruct (setValue_keeps_kind p
                (BasePropertyQuantity quantityUnit
                   (PrimFloat.mul (tr_value trRes) (tr_factor trRes)))) as [Hn Hk];
      [by rewrite Hdata|].
    rewrite Hdata in Hk.
    destruct (setValue p _) as [[ok p'] evs]. by exists p'.
Qed.

(** X3: whatever the variant, [fromVariant] leaves the name and the dynamic
    type of the property as they are, and with them the enumeration of an
    enumeration property and the declared unit of a quantity property: only
    the stored value can differ afterwards. *)
Theorem fromVariant_keeps_kind (conv : PropertyValueConversion) (p : Property)
    (variant : QVariant) :
  exists p',
    (fromVariant conv (Some p) variant).1.2 = Some p' /\
    name p' = name p /\ same_kind (data p) (data p').
Proof. exact (fromVariant_same_property conv p variant). Qed.

Lemma setValue_same (p : Property) :
  isValid p (data p) = true ->
  setValue p (data p) = (true, p, [notifyChanged (name p)]).
Proof. intros Hvalid. unfold setValue. rewrite Hvalid. by destruct p. Qed.

(** X4: for the kinds written as a boolean, an integer, a double, a byte
    array, a text, a text list, a date or a colour text, when the
    collaborators read back what [toVariant] wrote and the value of the
    property passes its validation, [toVariant] logs nothing and
    [fromVariant] applied to its result returns [true] and stores the same
    value.  For the three kinds without conversion the result of [toVariant]
    is refused: [fromVariant] returns [false] and the property is as before. *)
Theorem toVariant_fromVariant (conv : PropertyValueConversion) (p : Property) :
  (reads_back (data p) ->
   isValid p (data p) = true ->
   (toVariant conv p).2 = [] /\
   fromVariant conv (Some p) (toVariant conv p).1
   = (true, Some p, [notifyChanged (name p)])) /\
  (forall kind,
     unsupportedKind (data p) = Some kind ->
     (toVariant conv p).1 = QVariant_Invalid /\
     (fromVariant conv (Some p) (toVariant conv p).1).1 = (false, Some p)).
Proof.
  split.
  - intros Hback Hvalid. pose proof (setValue_same p Hvalid) as Hset.
    unfold toVariant, fromVariant.
    destruct (data p) eqn:Hdata; simpl in Hback; try done; simpl;
      rewrite ?Hback, Hset; done.
  - intros kind Hkind. unfold toVariant, fromVariant.
    destruct (data p) eqn:Hdata; simpl in Hkind; try discriminate; done.
Qed.

(** X5: an enumeration property whose value is the value of an item, in an
    enumeration where no two items have the same name, is written as the
    name of that item and read back to the same value, when the
    collaborators give back the text of a text variant and the value passes
    the validation. *)
Theorem enumeration_round_trip (conv : PropertyValueConversion) (p : Property)
    (e : Enumeration.t) (v : Z) :
  data p = PropertyEnumeration e v ->
  (exists item, item ∈ e /\ Enumeration.value item = v) ->
  NoDup (key ∘ Enumeration.name <$> e) ->
  toByteArray (QVariant_String (Enumeration.findName e v)) = Enumeration.findName e v ->
  isValid p (data p) = true ->
  (exists item, item ∈ e /\ Enumeration.value item = v /\
     toVariant conv p = (QVariant_String (key (Enumeration.name item)), [])) /\
  fromVariant conv (Some p) (toVariant conv p).1
  = (true, Some p, [notifyChanged (name p)]).
Proof.
  intros Hdata (item & Hin & Hvalue) Hnodup Hback Hvalid.
  pose proof (setValue_same p Hvalid) as Hset. rewrite Hdata in Hset.
  destruct (list_find_elem_of (fun it => Enumeration.value it = v) e item Hin Hvalue)
    as [[i it1] Hfind1].
  assert (Hname : Enumeration.findName e v = key (Enumeration.name it1)).
  { unfold Enumeration.findName. by rewrite Hfind1. }
  apply list_find_Some in Hfind1 as (Hi & Hv1 & _).
  assert (Hitem : Enumeration.findItem e (key (Enumeration.name it1)) = Some it1).
  { unfold Enumeration.findItem.
    destruct (list_find_elem_of
                (fun it => key (Enumeration.name it) = key (Enumeration.name it1))
                e it1) as [[j it2] Hfind2];
      [by eapply list_elem_of_lookup_2 | done |].
    rewrite Hfind2. simpl. f_equal.
    apply list_find_Some in Hfind2 as (Hj & Hn2 & _).
    assert (i = j) as ->.
    { eapply NoDup_lookup; [exact Hnodup| |];
        rewrite list_lookup_fmap; [rewrite Hi|rewrite Hj]; simpl; f_equal; done. }
    congruence. }
  split.
  - exists it1. split; [by eapply list_elem_of_lookup_2|]. split; [done|].
    unfold toVariant. by rewrite Hdata, Hname.
  - unfold toVariant, fromVariant. rewrite Hdata. simpl.
    rewrite Hback, Hname, Hitem, Hv1. by rewrite Hset.
Qed.

End ConversionRoundTrip.

(** The same on examples: a boolean property and a [PropertyCheckState]. *)
Lemma toVariant_fromVariant_witness :
  let conv := defaultPropValueConverter in
  fromVariant (H := Sample.collaborators) conv (Some (Sample.boolProp "a" true))
    (toVariant (H := Sample.collaborators) conv (Sample.boolProp "a" true)).1
  = (true, Some (Sample.boolProp "a" true), [notifyChanged (name (Sample.boolProp "a" true))]) /\
  (fromVariant (H := Sample.collaborators) conv (Some Sample.checkProp)
     (toVariant (H := Sample.collaborators) conv Sample.checkProp).1).1
  = (false, Some Sample.checkProp).
Proof.
  intros conv. split.
  - destruct (toVariant_fromVariant (H := Sample.collaborators) conv
                (Sample.boolProp "a" true)) as [Hback _].
    destruct Hback as [_ Hback]; [reflexivity | reflexivity | exact Hback].
  - destruct (toVariant_fromVariant (H := Sample.collaborators) conv Sample.checkProp)
      as [_ Hkind].
    destruct (Hkind "PropertyCheckState" eq_refl) as [_ Hres]. exact Hres.
Defined.

(** The same on an example: the enumeration of [mm] and [inch], at [mm]. *)
Lemma enumeration_round_trip_witness :
  let conv := defaultPropValueConverter in
  fromVariant (H := Sample.collaborators) conv (Some Sample.enumProp)
    (toVariant (H := Sample.collaborators) conv Sample.enumProp).1
  = (true, Some Sample.enumProp, [notifyChanged (name Sample.enumProp)]).
Proof.
  intros conv.
  destruct (enumeration_round_trip (H := Sample.collaborators) conv Sample.enumProp
              Sample.unitEnum 0) as [_ Hres].
  - reflexivity.
  - eexists. split; [apply list_elem_of_here | reflexivity].
  - simpl. apply NoDup_cons. split.
    + intros Hin%list_elem_of_singleton. discriminate.
    + apply NoDup_singleton.
  - reflexivity.
  - reflexivity.
  - exact Hres.
Defined.

(** ** The glTF writer *)

Module OccGltfWriterFacts.

Import OccGltfWriter.

(** Once a document is chosen, the loop keeps it and appends the labels of
    the tree nodes of that document. *)
Lemma fold_transfer_chosen (d : nat) (items : list ApplicationItem) (labels : list nat) :
  Forall (fun x => isDocument x = true -> isDocumentTreeNode x = false) items ->
  fold_left transfer_item items {| m_document := Some d; m_seqRootLabel := labels |}
  = {| m_document := Some d;
       m_seqRootLabel :=
         labels ++ (label <$> filter (fun y => isDocumentTreeNode y = true /\
                                               document y = Some d) items) |}.
Proof.
  intros Hexcl. revert labels.
  induction Hexcl as [|x items Hx _ IH]; intros labels; simpl.
  - by rewrite app_nil_r.
  - rewrite filter_cons. unfold transfer_item at 2. simpl.
    rewrite andb_false_r.
    destruct (isDocumentTreeNode x) eqn:Hnode.
    + case_bool_decide as Hdoc.
      * rewrite decide_True by done. rewrite IH. simpl. by rewrite <- app_assoc.
      * rewrite decide_False by (intros [_ ?]; done). apply IH.
    + rewrite decide_False by (intros [? _]; done). apply IH.
Qed.

(** X6: when no item is both a document and a tree node and the items that
    are one or the other have a document, [transfer] fails and keeps nothing
    if no item is a document or a tree node; otherwise it succeeds, the
    document kept is that of the first such item, and the labels kept are
    those of the tree nodes of that document, in the order of the items.
    What the writer held before the call plays no part. *)
Theorem transfer_spec (items : list ApplicationItem) (w : t) :
  Forall (fun x => isDocument x = true -> isDocumentTreeNode x = false) items ->
  Forall (fun x => relevant x = true -> document x <> None) items ->
  transfer items w =
    match list_find (fun x => relevant x = true) items with
    | None => (false, {| m_document := None; m_seqRootLabel := [] |})
    | Some (_, x) =>
        (true,
         {| m_document := document x;
            m_seqRootLabel :=
              label <$> filter (fun y => isDocumentTreeNode y = true /\
                                         document y = document x) items |})
    end.
Proof.
  unfold transfer. intros Hexcl Hdoc.
  assert (Hfold : fold_left transfer_item items
                    {| m_document := None; m_seqRootLabel := [] |}
                  = match list_find (fun x => relevant x = true) items with
                    | None => {| m_document := None; m_seqRootLabel := [] |}
                    | Some (_, x) =>
                        {| m_document := document x;
                           m_seqRootLabel :=
                             label <$> filter (fun y => isDocumentTreeNode y = true /\
                                                        document y = document x) items |}
                    end /\
                  match list_find (fun x => relevant x = true) items with
                  | None => True
                  | Some (_, x) => document x <> None
                  end).
  { induction Hexcl as [|x items Hx Hexcl IH]; [done|].
    apply Forall_cons in Hdoc as [Hdx Hdoc]. specialize (IH Hdoc).
    simpl. unfold relevant in *.
    destruct (isDocument x) eqn:Hisdoc; simpl.
    - destruct (document x) as [d|] eqn:Hd; [|by destruct Hdx].
      split; [|done]. unfold transfer_item at 2. simpl. rewrite Hisdoc, Hd. simpl.
      rewrite (fold_transfer_chosen d items [] Hexcl). simpl.
      rewrite filter_cons, decide_False; [done|].
      intros [Hnode _]. rewrite (Hx eq_refl) in Hnode. discriminate.
    - destruct (isDocumentTreeNode x) eqn:Hnode; simpl.
      + destruct (document x) as [d|] eqn:Hd; [|by destruct Hdx].
        split; [|done]. unfold transfer_item at 2. simpl. rewrite Hisdoc, Hnode, Hd. simpl.
        rewrite bool_decide_eq_true_2 by done.
        rewrite (fold_transfer_chosen d items _ Hexcl). simpl.
        rewrite filter_cons, decide_True; done.
      + unfold transfer_item at 2. simpl. rewrite Hisdoc, Hnode. simpl.
        destruct IH as [IH Hsome]. rewrite IH.
        destruct (list_find _ items) as [[i y]|]; simpl; [|done].
        split; [|done]. rewrite filter_cons, decide_False; [done|].
        intros [Hn _]. rewrite Hnode in Hn. discriminate. }
  destruct Hfold as [-> Hsome].
  destruct (list_find _ items) as [[i x]|]; simpl; [|done].
  by rewrite bool_decide_eq_true_2.
Qed.

(** The same on an example: a tree node of document 1, a tree node of
    document 2, the document 1 itself and another tree node of document 1. *)
Lemma transfer_spec_witness :
  let node d l := {| isDocument := false; isDocumentTreeNode := true;
                     document := Some d; label := l |} in
  let doc d := {| isDocument := true; isDocumentTreeNode := false;
                  document := Some d; label := 0%nat |} in
  transfer [node 1%nat 10%nat; node 2%nat 20%nat; doc 1%nat; node 1%nat 11%nat]
    {| m_document := Some 9%nat; m_seqRootLabel := [99%nat] |}
  = (true, {| m_document := Some 1%nat; m_seqRootLabel := [10%nat; 11%nat] |}).
Proof.
  intros node doc.
  rewrite transfer_spec.
  - reflexivity.
  - repeat constructor; discriminate.
  - repeat constructor; discriminate.
Defined.

End OccGltfWriterFacts.

(** ** Lookups after additions *)

Lemma settings_paths_groups (s : Settings) :
  settings_paths s = m_vecGroup s ≫= group_paths.
Proof. reflexivity. Qed.

Lemma group_paths_ext (g g' : Settings_Group) :
  key (grp_identifier g') = key (grp_identifier g) ->
  vecSection g' = vecSection g ->
  group_paths g' = group_paths g.
Proof.
  intros Hkey Hsec. unfold group_paths, sectionPath. by rewrite Hkey, Hsec.
Qed.

(** The entries visited when one group is replaced. *)
Lemma settings_paths_put_group (s : Settings) (index : GroupIndex)
    (g g' : Settings_Group) :
  group s index = Some g ->
  exists before after,
    settings_paths s = before ++ group_paths g ++ after /\
    settings_paths (put_group index g' s) = before ++ group_paths g' ++ after.
Proof.
  intros [_ Hg]%at_Some.
  exists (take (Z.to_nat (group_get index)) (m_vecGroup s) ≫= group_paths),
         (drop (S (Z.to_nat (group_get index))) (m_vecGroup s) ≫= group_paths).
  rewrite !settings_paths_groups, m_vecGroup_put_group. split.
  - rewrite <- (take_drop_middle _ _ _ Hg) at 1.
    rewrite bind_app, bind_cons. done.
  - rewrite insert_take_drop by (by eapply lookup_lt_Some).
    rewrite bind_app, bind_cons. done.
Qed.

Lemma group_put_group_ne (s : Settings) (index index' : GroupIndex) (g' : Settings_Group) :
  Z.to_nat (group_get index) <> Z.to_nat (group_get index') ->
  group (put_group index g' s) index' = group s index'.
Proof.
  intros Hne. unfold group, at_, put_group. simpl.
  case_decide; [|done]. by rewrite list_lookup_insert_ne.
Qed.

(** X7: for a valid identifier in a registry of fewer than 2^31 - 1 groups,
    the index [addGroup] returns is the index of a group of that
    identifier; every index that designated a group still designates the
    same group; the number of groups is the same or one more; and the
    settings visited for persistence are the same. *)
Theorem addGroup_lookup (identifier : QByteArray) (s : Settings) :
  isValidIdentifier identifier = true ->
  Z.of_nat (length (m_vecGroup s)) < 2 ^ 31 - 1 ->
  exists index s1,
    addGroup identifier s = Some (index, s1) /\
    groupIdentifier s1 index = Some identifier /\
    (forall index' g, group s index' = Some g -> group s1 index' = Some g) /\
    (groupCount s1 = groupCount s \/ groupCount s1 = groupCount s + 1) /\
    settings_paths s1 = settings_paths s.
Proof.
  intros Hvalid Hsize.
  destruct (list_find (fun g => key (grp_identifier g) = identifier) (m_vecGroup s))
    as [[i g0]|] eqn:Hfind.
  - rewrite (addGroup_existing _ _ _ _ Hvalid Hfind).
    apply list_find_Some in Hfind as (Hi & Hkey & _).
    assert (Hlt := lookup_lt_Some _ _ _ Hi).
    eexists _, _. split; [reflexivity|]. split; [|split; [done|split; [by left|done]]].
    unfold groupIdentifier, group. simpl.
    rewrite int_cast_small by lia. rewrite at_of_nat, Hi. simpl. by rewrite Hkey.
  - rewrite (addGroup_fresh _ _ Hvalid Hfind).
    eexists _, _. split; [reflexivity|]. split; [|split; [|split]].
    + unfold groupIdentifier, group. simpl.
      rewrite int_cast_small by lia. rewrite at_of_nat.
      rewrite lookup_app_r by lia. by rewrite Nat.sub_diag.
    + intros index' g [Hidx Hg]%at_Some. apply at_Some. split; [done|].
      simpl. by apply lookup_app_l_Some.
    + right. unfold groupCount. simpl. rewrite length_app, Nat2Z.inj_add. simpl.
      rewrite !int_cast_small by lia. done.
    + rewrite !settings_paths_groups. simpl. rewrite bind_app. simpl.
      by rewrite app_nil_r.
Qed.

(** The same on an example: [Export] added to the registry that has it. *)
Lemma addGroup_lookup_witness :
  exists index s1,
    addGroup "Export" (Sample.exportRegistry [0%nat]) = Some (index, s1) /\
    groupIdentifier s1 index = Some "Export".
Proof.
  destruct (addGroup_lookup "Export" (Sample.exportRegistry [0%nat]))
    as (index & s1 & Hadd & Hid & _); [reflexivity | vm_compute; reflexivity |].
  exists index, s1. split; [exact Hadd | exact Hid].
Defined.

Lemma group_paths_sections (g : Settings_Group) :
  group_paths g = vecSection g ≫= section_paths (key (grp_identifier g)).
Proof. reflexivity. Qed.

Lemma section_paths_snoc (groupKey : QByteArray) (c : Settings_Section) (t : Settings_Setting) :
  section_paths groupKey (set_vecSetting (vecSetting c ++ [t]) c)
  = section_paths groupKey c ++ [(groupKey +:+ "/" +:+ key (sec_identifier c), property t)].
Proof. unfold section_paths. simpl. rewrite bind_app. simpl. done. Qed.

(** The group [addGroup] designates. *)
Lemma addGroup_designates (identifier : QByteArray) (s : Settings) :
  isValidIdentifier identifier = true ->
  Z.of_nat (length (m_vecGroup s)) < 2 ^ 31 - 1 ->
  exists index s1 g,
    addGroup identifier s = Some (index, s1) /\
    0 <= group_get index /\
    m_vecGroup s1 !! Z.to_nat (group_get index) = Some g /\
    key (grp_identifier g) = identifier.
Proof.
  intros Hvalid Hsize.
  destruct (list_find (fun g => key (grp_identifier g) = identifier) (m_vecGroup s))
    as [[i g0]|] eqn:Hfind.
  - rewrite (addGroup_existing _ _ _ _ Hvalid Hfind).
    apply list_find_Some in Hfind as (Hi & Hkey & _).
    assert (Hlt := lookup_lt_Some _ _ _ Hi).
    eexists _, _, g0. split; [reflexivity|]. simpl.
    rewrite int_cast_small by lia. rewrite Nat2Z.id. split; [lia|done].
  - rewrite (addGroup_fresh _ _ Hvalid Hfind).
    eexists _, _, _. split; [reflexivity|]. simpl.
    rewrite int_cast_small by lia. rewrite Nat2Z.id. split; [lia|].
    rewrite lookup_app_r by lia. rewrite Nat.sub_diag. simpl. done.
Qed.

(** X8: [addGroup] with a [TextId] returns the index [addGroup] returns for
    its key and then makes the [TextId] the identifier of the group at that
    index, also when the group existed: the keys of all groups, their
    sections and the settings visited for persistence are as after
    [addGroup] with the key. *)
Theorem addGroup_TextId_spec (identifier : TextId) (s : Settings) :
  isValidIdentifier (key identifier) = true ->
  Z.of_nat (length (m_vecGroup s)) < 2 ^ 31 - 1 ->
  exists index s0 s1 g,
    addGroup (key identifier) s = Some (index, s0) /\
    addGroup_TextId identifier s = Some (index, s1) /\
    group s0 index = Some g /\
    group s1 index = Some (set_grp_identifier identifier g) /\
    vecSection <$> m_vecGroup s1 = vecSection <$> m_vecGroup s0 /\
    key ∘ grp_identifier <$> m_vecGroup s1 = key ∘ grp_identifier <$> m_vecGroup s0 /\
    settings_paths s1 = settings_paths s0.
Proof.
  intros Hvalid Hsize.
  destruct (addGroup_designates _ _ Hvalid Hsize)
    as (index & s0 & g & Hadd & Hidx & Hg & Hkey).
  assert (Hgroup : group s0 index = Some g) by (by apply at_Some).
  exists index, s0, (put_group index (set_grp_identifier identifier g) s0), g.
  split; [exact Hadd|]. split; [|split; [exact Hgroup|split; [|split; [|split]]]].
  - unfold addGroup_TextId. rewrite Hadd. simpl. by rewrite Hgroup.
  - by eapply group_put_group.
  - rewrite m_vecGroup_put_group, list_fmap_insert. simpl.
    rewrite list_insert_id; [done|]. by rewrite list_lookup_fmap, Hg.
  - rewrite m_vecGroup_put_group, list_fmap_insert. simpl.
    rewrite list_insert_id; [done|]. rewrite list_lookup_fmap, Hg. simpl. by rewrite Hkey.
  - destruct (settings_paths_put_group s0 index g (set_grp_identifier identifier g) Hgroup)
      as (before & after & -> & ->).
    f_equal. f_equal. apply group_paths_ext; [by rewrite Hkey|done].
Qed.

(** The same on an example: [Export] with another context, on the registry
    that has the group. *)
Lemma addGroup_TextId_spec_witness :
  exists index s1,
    addGroup_TextId (MAYO_TEXT_ID "Mayo::IO" "Export") (Sample.exportRegistry [0%nat])
      = Some (index, s1) /\
    settings_paths s1 = settings_paths (Sample.exportRegistry [0%nat]).
Proof.
  destruct (addGroup_TextId_spec (MAYO_TEXT_ID "Mayo::IO" "Export")
              (Sample.exportRegistry [0%nat]))
    as (index & s0 & s1 & g & Hadd0 & Hadd & _ & _ & _ & _ & Hpaths);
    [reflexivity | vm_compute; reflexivity |].
  exists index, s1. split; [exact Hadd|]. rewrite Hpaths.
  vm_compute in Hadd0. injection Hadd0 as _ <-. reflexivity.
Defined.

Lemma section_Some (s : Settings) (index : SectionIndex) (c : Settings_Section) :
  section s index = Some c <->
  exists g, group s (section_group index) = Some g /\
            at_ (vecSection g) (section_get index) = Some c.
Proof.
  unfold section. destruct (group s (section_group index)) as [g|]; simpl.
  - split; [eauto|]. by intros (g' & [= <-] & Hc).
  - split; [done|]. by intros (g' & Hg & _).
Qed.

(** A section is unchanged when its group is replaced by one that has the
    same sections up to the position of the section. *)
Lemma section_put_group_prefix (s : Settings) (index : GroupIndex)
    (g g' : Settings_Group) (si : SectionIndex) (c : Settings_Section) :
  group s index = Some g ->
  (forall k c0, vecSection g !! k = Some c0 -> vecSection g' !! k = Some c0) ->
  section s si = Some c ->
  section (put_group index g' s) si = Some c.
Proof.
  intros Hg Hprefix (g0 & Hg0 & Hc)%section_Some. apply section_Some.
  destruct (decide (Z.to_nat (group_get index) = Z.to_nat (group_get (section_group si))))
    as [Heq|Hne].
  - assert (g0 = g) as ->.
    { apply at_Some in Hg as [_ Hg]. apply at_Some in Hg0 as [_ Hg0]. congruence. }
    exists g'. split.
    + apply at_Some in Hg0 as [Hi Hg0]. apply at_Some. split; [done|].
      rewrite m_vecGroup_put_group, Heq. apply list_lookup_insert_eq.
      by eapply lookup_lt_Some.
    + apply at_Some in Hc as [Hi Hc]. apply at_Some. split; [done|]. by apply Hprefix.
  - exists g0. split; [|done]. by rewrite group_put_group_ne.
Qed.

(** X9: on an existing group of fewer than 2^31 - 1 sections and for a valid
    identifier, [addSection] returns the index of a new, empty section of
    that identifier that is not the default one; every index that designated
    a section still designates the same section; the group has one section
    more; and the settings visited for persistence are the same. *)
Theorem addSection_lookup (index : GroupIndex) (identifier : QByteArray)
    (s : Settings) (g : Settings_Group) :
  group s index = Some g ->
  isValidIdentifier identifier = true ->
  Z.of_nat (length (vecSection g)) < 2 ^ 31 - 1 ->
  exists sectionIndex s1 c,
    addSection index identifier s = Some (sectionIndex, s1) /\
    section_group sectionIndex = index /\
    section s1 sectionIndex = Some c /\
    vecSetting c = [] /\
    sectionIdentifier s1 sectionIndex = Some identifier /\
    isDefaultGroupSection s1 sectionIndex = Some false /\
    (forall si c', section s si = Some c' -> section s1 si = Some c') /\
    sectionCount s index = Some (Z.of_nat (length (vecSection g))) /\
    sectionCount s1 index = Some (Z.of_nat (length (vecSection g)) + 1) /\
    settings_paths s1 = settings_paths s.
Proof.
  intros Hg Hvalid Hsize. unfold addSection. rewrite Hvalid, Hg. simpl.
  set (c := set_sec_identifier {| trContext := ""; key := identifier |}
              Settings_Section_init).
  set (g' := set_vecSection (vecSection g ++ [c]) g).
  assert (Hg' := group_put_group s index g g' Hg).
  assert (Hidx : int_cast (int_cast (Z.of_nat (length (vecSection g ++ [c]))) - 1)
                 = Z.of_nat (length (vecSection g))).
  { rewrite length_app, Nat2Z.inj_add. simpl. rewrite int_cast_pred.
    apply int_cast_small. lia. }
  assert (Hsec : section (put_group index g' s)
                   (mkSectionIndex index (Z.of_nat (length (vecSection g)))) = Some c).
  { apply section_Some. exists g'. split; [done|]. simpl.
    rewrite at_of_nat, lookup_app_r by lia. by rewrite Nat.sub_diag. }
  eexists _, _, c. split; [reflexivity|]. rewrite Hidx.
  split; [done|]. split; [exact Hsec|]. split; [done|].
  split; [unfold sectionIdentifier; by rewrite Hsec|].
  split; [unfold isDefaultGroupSection; by rewrite Hsec|].
  split; [|split; [|split]].
  - intros si c' Hc'. eapply section_put_group_prefix; [done| |done].
    intros k c0 Hk. simpl. by apply lookup_app_l_Some.
  - unfold sectionCount. rewrite Hg. simpl. by rewrite int_cast_small by lia.
  - unfold sectionCount. rewrite Hg'. simpl.
    rewrite length_app, Nat2Z.inj_add. simpl. by rewrite int_cast_small by lia.
  - destruct (settings_paths_put_group s index g g' Hg) as (before & after & -> & ->).
    f_equal. f_equal. rewrite !group_paths_sections. simpl.
    rewrite bind_app. simpl. by rewrite app_nil_r.
Qed.

(** The same on an example: the section [Mesh] added to the group [Export]. *)
Lemma addSection_lookup_witness :
  exists sectionIndex s1,
    addSection (mkGroupIndex 0) "Mesh" (Sample.exportRegistry [0%nat])
      = Some (sectionIndex, s1) /\
    sectionIdentifier s1 sectionIndex = Some "Mesh" /\
    isDefaultGroupSection s1 sectionIndex = Some false /\
    settings_paths s1 = [("Export/", Some 0%nat)].
Proof.
  assert (Hgroup : exists g, group (Sample.exportRegistry [0%nat]) (mkGroupIndex 0) = Some g
                             /\ length (vecSection g) = 1%nat).
  { eexists. split; [vm_compute; reflexivity | reflexivity]. }
  destruct Hgroup as (g & Hg & Hlen).
  destruct (addSection_lookup (mkGroupIndex 0) "Mesh" (Sample.exportRegistry [0%nat]) g)
    as (si & s1 & c & Hadd & _ & _ & _ & Hid & Hdef & _ & _ & _ & Hpaths);
    [exact Hg | reflexivity | rewrite Hlen; reflexivity |].
  exists si, s1. split; [exact Hadd|]. split; [exact Hid|]. split; [exact Hdef|].
  rewrite Hpaths. vm_compute. reflexivity.
Defined.

(** Replacing a section of a group by one of the same identifier. *)
Lemma put_section_eq (s : Settings) (index : SectionIndex) (g : Settings_Group)
    (c c' : Settings_Section) :
  group s (section_group index) = Some g ->
  at_ (vecSection g) (section_get index) = Some c ->
  let g' := set_vecSection (<[Z.to_nat (section_get index) := c']> (vecSection g)) g in
  put_section index c' s = Some (put_group (section_group index) g' s) /\
  section (put_group (section_group index) g' s) index = Some c' /\
  (sec_identifier c' = sec_identifier c ->
   exists before after,
     settings_paths s
       = before ++ section_paths (key (grp_identifier g)) c ++ after /\
     settings_paths (put_group (section_group index) g' s)
       = before ++ section_paths (key (grp_identifier g)) c' ++ after).
Proof.
  intros Hg Hc g'. assert (Hc0 := Hc). apply at_Some in Hc0 as [Hk Hc0].
  split; [unfold put_section; by rewrite Hg|]. split.
  - apply section_Some. exists g'. split; [by eapply group_put_group|].
    apply at_Some. split; [done|]. simpl. apply list_lookup_insert_eq.
    by eapply lookup_lt_Some.
  - intros Hid.
    destruct (settings_paths_put_group s (section_group index) g g' Hg)
      as (before & after & -> & ->).
    exists (before ++ (take (Z.to_nat (section_get index)) (vecSection g)
                       ≫= section_paths (key (grp_identifier g)))),
           ((drop (S (Z.to_nat (section_get index))) (vecSection g)
             ≫= section_paths (key (grp_identifier g))) ++ after).
    rewrite !group_paths_sections. simpl. split.
    + rewrite <- (take_drop_middle _ _ _ Hc0) at 1.
      rewrite bind_app, bind_cons. by rewrite <- !app_assoc.
    + rewrite insert_take_drop by (by eapply lookup_lt_Some).
      rewrite bind_app, bind_cons. by rewrite <- !app_assoc.
Qed.

Lemma Settings_property_Some (s : Settings) (index : SettingIndex) (prop : option Addr) :
  Settings_property s index = Some prop <->
  exists c t, section s (setting_section index) = Some c /\
              at_ (vecSetting c) (setting_get index) = Some t /\ property t = prop.
Proof.
  unfold Settings_property.
  destruct (section s (setting_section index)) as [c|]; simpl.
  - destruct (at_ (vecSetting c) (setting_get index)) as [t|] eqn:Ht; simpl.
    + split; [intros [= <-]; by exists c, t|].
      intros (c' & t' & [= <-] & Ht' & <-). congruence.
    + split; [done|]. intros (c' & t' & [= <-] & Ht' & _). congruence.
  - split; [done|]. by intros (c' & t' & Hc & _).
Qed.

(** X10: on an existing section of fewer than 2^31 - 1 settings,
    [addSetting] on the section returns an index of that section at which
    [property] gives the pointer back; every index that designated a setting
    still designates the same pointer; the section has one setting more; and
    the settings visited for persistence are the ones visited before, in the
    same order, with one new entry for the pointer, after the other settings
    of its section, under the path of the section. *)
Theorem addSetting_Section_lookup (prop : option Addr) (index : SectionIndex)
    (s : Settings) (g : Settings_Group) (c : Settings_Section) :
  group s (section_group index) = Some g ->
  section s index = Some c ->
  Z.of_nat (length (vecSetting c)) < 2 ^ 31 - 1 ->
  exists settingIndex s1,
    addSetting_Section prop index s = Some (settingIndex, s1) /\
    setting_section settingIndex = index /\
    Settings_property s1 settingIndex = Some prop /\
    (forall i p', Settings_property s i = Some p' -> Settings_property s1 i = Some p') /\
    settingCount s index = Some (Z.of_nat (length (vecSetting c))) /\
    settingCount s1 index = Some (Z.of_nat (length (vecSetting c)) + 1) /\
    exists before after,
      settings_paths s = before ++ after /\
      settings_paths s1 = before ++ [(sectionPath g c, prop)] ++ after.
Proof.
  intros Hg Hc Hsize.
  assert (Hat : at_ (vecSection g) (section_get index) = Some c).
  { apply section_Some in Hc as (g0 & Hg0 & Hc). congruence. }
  set (c' := set_vecSetting (vecSetting c ++ [{| property := prop |}]) c).
  destruct (put_section_eq s index g c c' Hg Hat) as (Hput & Hsec & Hpaths).
  set (g' := set_vecSection (<[Z.to_nat (section_get index) := c']> (vecSection g)) g) in *.
  unfold addSetting_Section. rewrite Hc. simpl. fold c'. rewrite Hput. simpl.
  assert (Hidx : int_cast (int_cast (Z.of_nat (length (vecSetting c ++ [{| property := prop |}]))) - 1)
                 = Z.of_nat (length (vecSetting c))).
  { rewrite length_app, Nat2Z.inj_add. simpl. rewrite int_cast_pred.
    apply int_cast_small. lia. }
  eexists _, _. split; [reflexivity|]. rewrite Hidx.
  split; [done|]. split; [|split; [|split; [|split]]].
  - apply Settings_property_Some. exists c', {| property := prop |}. simpl.
    split; [done|]. split; [|done].
    rewrite at_of_nat, lookup_app_r by lia. by rewrite Nat.sub_diag.
  - intros i p' (c0 & t & Hc0 & Ht & Hp)%Settings_property_Some.
    apply Settings_property_Some.
    destruct (decide (Z.to_nat (group_get (section_group index))
                      = Z.to_nat (group_get (section_group (setting_section i)))
                      /\ Z.to_nat (section_get index)
                         = Z.to_nat (section_get (setting_section i)))) as [[Hgi Hci]|Hne].
    + (* the section that received the setting *)
      apply section_Some in Hc0 as (g0 & Hg0 & Hc0).
      assert (g0 = g) as ->.
      { apply at_Some in Hg as [_ Hg]. apply at_Some in Hg0 as [_ Hg0]. congruence. }
      assert (c0 = c) as ->.
      { apply at_Some in Hat as [_ Hat]. apply at_Some in Hc0 as [_ Hc0]. congruence. }
      exists c', t. split; [|split; [|done]].
      * apply section_Some. exists g'. split.
        -- apply at_Some in Hg0 as [Hi Hg0]. apply at_Some. split; [done|].
           rewrite m_vecGroup_put_group, Hgi. apply list_lookup_insert_eq.
           by eapply lookup_lt_Some.
        -- apply at_Some in Hc0 as [Hi Hc0]. apply at_Some. split; [done|]. simpl.
           rewrite Hci. apply list_lookup_insert_eq. by eapply lookup_lt_Some.
      * apply at_Some in Ht as [Hi Ht]. apply at_Some. split; [done|]. simpl.
        by apply lookup_app_l_Some.
    + exists c0, t. split; [|done].
      apply section_Some in Hc0 as (g0 & Hg0 & Hc0). apply section_Some.
      destruct (decide (Z.to_nat (group_get (section_group index))
                        = Z.to_nat (group_get (section_group (setting_section i)))))
        as [Hgi|Hgi].
      * assert (g0 = g) as ->.
        { apply at_Some in Hg as [_ Hg]. apply at_Some in Hg0 as [_ Hg0]. congruence. }
        exists g'. split.
        -- apply at_Some in Hg0 as [Hi Hg0]. apply at_Some. split; [done|].
           rewrite m_vecGroup_put_group, Hgi. apply list_lookup_insert_eq.
           by eapply lookup_lt_Some.
        -- apply at_Some in Hc0 as [Hi Hc0]. apply at_Some. split; [done|]. simpl.
           rewrite list_lookup_insert_ne; [done|]. intros Heq. apply Hne. done.
      * exists g0. split; [|done]. by rewrite group_put_group_ne.
  - unfold settingCount. rewrite Hc. simpl. by rewrite int_cast_small by lia.
  - unfold settingCount. rewrite Hsec. simpl.
    rewrite length_app, Nat2Z.inj_add. simpl. by rewrite int_cast_small by lia.
  - destruct (Hpaths eq_refl) as (before & after & Hs & Hs1).
    exists (before ++ section_paths (key (grp_identifier g)) c), after.
    split; [by rewrite <- app_assoc|].
    rewrite Hs1. unfold c'. rewrite section_paths_snoc. unfold sectionPath. simpl.
    by rewrite <- !app_assoc.
Qed.

(** The same on an example: a second setting in the default section of
    [Export]. *)
Lemma addSetting_Section_lookup_witness :
  exists settingIndex s1,
    addSetting_Section (Some 1%nat) (mkSectionIndex (mkGroupIndex 0) 0)
      (Sample.exportRegistry [0%nat]) = Some (settingIndex, s1) /\
    Settings_property s1 settingIndex = Some (Some 1%nat) /\
    settings_paths s1 = [("Export/", Some 0%nat); ("Export/", Some 1%nat)].
Proof.
  assert (Hgroup : exists g c,
            group (Sample.exportRegistry [0%nat]) (mkGroupIndex 0) = Some g /\
            section (Sample.exportRegistry [0%nat]) (mkSectionIndex (mkGroupIndex 0) 0)
              = Some c /\ length (vecSetting c) = 1%nat).
  { eexists _, _. split; [vm_compute; reflexivity|].
    split; [vm_compute; reflexivity | reflexivity]. }
  destruct Hgroup as (g & c & Hg & Hc & Hlen).
  destruct (addSetting_Section_lookup (Some 1%nat) (mkSectionIndex (mkGroupIndex 0) 0)
              (Sample.exportRegistry [0%nat]) g c)
    as (si & s1 & Hadd & _ & Hprop & _ & _ & _ & _);
    [exact Hg | exact Hc | rewrite Hlen; reflexivity |].
  exists si, s1. split; [exact Hadd|]. split; [exact Hprop|].
  vm_compute in Hadd. injection Hadd as _ <-. vm_compute. reflexivity.
Defined.



(** ** Titles *)

(** X12: on an existing group, the title read after [setGroupTitle] is the
    title that was set when it is not empty, and the translation of the
    identifier of the group when it is empty; on an existing section the
    same holds of [setSectionTitle] and [sectionTitle].  Setting a title
    changes neither the identifier nor the settings visited for
    persistence. *)
Theorem titles_round_trip (tr : TextId -> QString) (s : Settings) (title : QString) :
  (forall index g,
     group s index = Some g ->
     exists s1,
       setGroupTitle index title s = Some s1 /\
       groupTitle tr s1 index
         = Some (if isEmpty title then tr (grp_identifier g) else title) /\
       groupIdentifier s1 index = groupIdentifier s index /\
       settings_paths s1 = settings_paths s) /\
  (forall index c,
     section s index = Some c ->
     exists s1,
       setSectionTitle index title s = Some s1 /\
       sectionTitle tr s1 index
         = Some (if isEmpty title then tr (sec_identifier c) else title) /\
       sectionIdentifier s1 index = sectionIdentifier s index /\
       settings_paths s1 = settings_paths s).
Proof.
  split.
  - intros index g Hg. unfold setGroupTitle. rewrite Hg. simpl.
    eexists. split; [reflexivity|].
    assert (Hg' := group_put_group s index g (set_grp_overridenTitle title g) Hg).
    split; [|split].
    + unfold groupTitle. rewrite Hg'. simpl. by destruct (isEmpty title).
    + unfold groupIdentifier. by rewrite Hg', Hg.
    + destruct (settings_paths_put_group s index g (set_grp_overridenTitle title g) Hg)
        as (before & after & -> & ->). done.
  - intros index c Hc. unfold setSectionTitle. rewrite Hc. simpl.
    assert (Hc0 := Hc). apply section_Some in Hc0 as (g & Hg & Hat).
    destruct (put_section_eq s index g c (set_sec_overridenTitle title c) Hg Hat)
      as (Hput & Hsec & Hpaths).
    rewrite Hput. eexists. split; [reflexivity|]. split; [|split].
    + unfold sectionTitle. rewrite Hsec. simpl. by destruct (isEmpty title).
    + unfold sectionIdentifier. by rewrite Hsec, Hc.
    + destruct (Hpaths eq_refl) as (before & after & -> & ->). done.
Qed.

(** The same on an example: the group [Export] given the title [Exports],
    then the empty title. *)
Lemma titles_round_trip_witness :
  let tr := fun id : TextId => "tr:" +:+ key id in
  exists s1 s2,
    setGroupTitle (mkGroupIndex 0) "Exports" (Sample.exportRegistry []) = Some s1 /\
    groupTitle tr s1 (mkGroupIndex 0) = Some "Exports" /\
    setGroupTitle (mkGroupIndex 0) "" s1 = Some s2 /\
    groupTitle tr s2 (mkGroupIndex 0) = Some "tr:Export".
Proof.
  intros tr.
  assert (Hgroup : exists g, group (Sample.exportRegistry []) (mkGroupIndex 0) = Some g
                             /\ key (grp_identifier g) = "Export").
  { eexists. split; [vm_compute; reflexivity | reflexivity]. }
  destruct Hgroup as (g & Hg & Hkey).
  destruct (titles_round_trip tr (Sample.exportRegistry []) "Exports") as [Hset _].
  destruct (Hset (mkGroupIndex 0) g Hg) as (s1 & Hs1 & Htitle1 & _).
  assert (Hg1 : group s1 (mkGroupIndex 0) = Some (set_grp_overridenTitle "Exports" g)).
  { unfold setGroupTitle in Hs1. rewrite Hg in Hs1. injection Hs1 as <-.
    by eapply group_put_group. }
  destruct (titles_round_trip tr s1 "") as [Hset2 _].
  destruct (Hset2 (mkGroupIndex 0) _ Hg1) as (s2 & Hs2 & Htitle2 & _).
  exists s1, s2. split; [exact Hs1|]. split; [exact Htitle1|]. split; [exact Hs2|].
  rewrite Htitle2. simpl. unfold tr. by rewrite Hkey.
Defined.

(** ** Finding a property *)

Lemma find_from_None {A B} (body : nat -> A -> option B) (i : nat) (l : list A) :
  find_from body i l = None <->
  forall (k : nat) x, l !! k = Some x -> body (i + k)%nat x = None.
Proof.
  revert i. induction l as [|x l IH]; intros i; simpl.
  - split; [|done]. intros _ k y Hk. by rewrite lookup_nil in Hk.
  - destruct (body i x) as [b|] eqn:Hb.
    + split; [done|]. intros Hall. specialize (Hall 0%nat x eq_refl).
      rewrite Nat.add_0_r in Hall. congruence.
    + rewrite IH. split.
      * intros Hall [|k] y Hk; simpl in Hk.
        -- injection Hk as <-. by rewrite Nat.add_0_r.
        -- rewrite Nat.add_succ_r. by apply Hall.
      * intros Hall k y Hk. specialize (Hall (S k) y Hk).
        by rewrite Nat.add_succ_r in Hall.
Qed.

Lemma find_from_Some {A B} (body : nat -> A -> option B) (i : nat) (l : list A) (b : B) :
  find_from body i l = Some b ->
  exists (k : nat) x,
    l !! k = Some x /\ body (i + k)%nat x = Some b /\
    forall (j : nat) y, (j < k)%nat -> l !! j = Some y -> body (i + j)%nat y = None.
Proof.
  revert i. induction l as [|x l IH]; intros i; simpl; [done|].
  destruct (body i x) as [b'|] eqn:Hb.
  - intros [= ->]. exists 0%nat, x. rewrite Nat.add_0_r.
    split; [done|]. split; [done|]. intros j y Hj. lia.
  - intros Hfind. destruct (IH _ Hfind) as (k & y & Hk & Hbody & Hmin).
    exists (S k), y. rewrite Nat.add_succ_r. split; [done|]. split; [done|].
    intros [|j] z Hj Hz; simpl in Hz.
    + injection Hz as <-. by rewrite Nat.add_0_r.
    + rewrite Nat.add_succ_r. apply Hmin; [lia|done].
Qed.

(** What a result of [findProperty] stands for: the positions of a group, a
    section and a setting that holds the pointer, with no such setting
    before it in that section, in an earlier section of that group or in an
    earlier group. *)
Lemma findProperty_Some (s : Settings) (prop : option Addr) (index : SettingIndex) :
  findProperty s prop = Some index ->
  exists (gi ci ti : nat) g c t,
    m_vecGroup s !! gi = Some g /\ vecSection g !! ci = Some c /\
    vecSetting c !! ti = Some t /\ property t = prop /\
    index = mkSettingIndex
              (mkSectionIndex (mkGroupIndex (int_cast (Z.of_nat gi)))
                 (int_cast (Z.of_nat ci)))
              (int_cast (Z.of_nat ti)) /\
    (forall (j : nat) t', (j < ti)%nat -> vecSetting c !! j = Some t' -> property t' <> prop) /\
    (forall (j k : nat) c' t', (j < ci)%nat -> vecSection g !! j = Some c' ->
       vecSetting c' !! k = Some t' -> property t' <> prop) /\
    (forall (j k l : nat) g' c' t', (j < gi)%nat -> m_vecGroup s !! j = Some g' ->
       vecSection g' !! k = Some c' -> vecSetting c' !! l = Some t' ->
       property t' <> prop).
Proof.
  unfold findProperty. intros Hfind.
  apply find_from_Some in Hfind as (gi & g & Hg & Hfind & Hgmin). simpl in *.
  apply find_from_Some in Hfind as (ci & c & Hc & Hfind & Hcmin). simpl in *.
  apply find_from_Some in Hfind as (ti & t & Ht & Hfind & Htmin). simpl in *.
  case_decide as Hprop; [|discriminate]. injection Hfind as <-.
  exists gi, ci, ti, g, c, t. repeat (split; [done|]). split; [|split].
  - intros j t' Hj Ht'. specialize (Htmin j t' Hj Ht'). by case_decide.
  - intros j k c' t' Hj Hc' Ht'. specialize (Hcmin j c' Hj Hc').
    rewrite find_from_None in Hcmin. specialize (Hcmin k t' Ht'). simpl in Hcmin.
    by case_decide.
  - intros j k l g' c' t' Hj Hg' Hc' Ht'. specialize (Hgmin j g' Hj Hg').
    rewrite find_from_None in Hgmin. specialize (Hgmin k c' Hc'). simpl in Hgmin.
    rewrite find_from_None in Hgmin. specialize (Hgmin l t' Ht'). simpl in Hgmin.
    by case_decide.
Qed.

Lemma findProperty_None (s : Settings) (prop : option Addr) :
  findProperty s prop = None <->
  forall e, e ∈ settings_paths s -> e.2 <> prop.
Proof.
  unfold findProperty. rewrite find_from_None. split.
  - intros Hnone e He. unfold settings_paths in He.
    apply list_elem_of_bind in He as (g & He & Hg).
    apply list_elem_of_bind in He as (c & He & Hc).
    apply list_elem_of_bind in He as (t & He & Ht).
    apply list_elem_of_singleton in He as ->. simpl.
    apply list_elem_of_lookup in Hg as [gi Hg].
    apply list_elem_of_lookup in Hc as [ci Hc].
    apply list_elem_of_lookup in Ht as [ti Ht].
    specialize (Hnone gi g Hg). simpl in Hnone.
    rewrite find_from_None in Hnone. specialize (Hnone ci c Hc). simpl in Hnone.
    rewrite find_from_None in Hnone. specialize (Hnone ti t Ht). simpl in Hnone.
    by case_decide.
  - intros Hall gi g Hg. simpl. apply find_from_None. intros ci c Hc. simpl.
    apply find_from_None. intros ti t Ht. simpl.
    case_decide as Hprop; [|done]. exfalso.
    apply (Hall (sectionPath g c, property t)); [|done].
    unfold settings_paths.
    apply list_elem_of_bind. exists g. split; [|by eapply list_elem_of_lookup_2].
    apply list_elem_of_bind. exists c. split; [|by eapply list_elem_of_lookup_2].
    apply list_elem_of_bind. exists t. split; [|by eapply list_elem_of_lookup_2].
    by apply list_elem_of_singleton.
Qed.

Lemma int_sized_lookup (s : Settings) (gi ci ti : nat) g c t :
  int_sized s ->
  m_vecGroup s !! gi = Some g -> vecSection g !! ci = Some c ->
  vecSetting c !! ti = Some t ->
  Z.of_nat gi < 2 ^ 31 /\ Z.of_nat ci < 2 ^ 31 /\ Z.of_nat ti < 2 ^ 31.
Proof.
  intros [Hgroups Hall] Hg Hc Ht.
  rewrite Forall_lookup in Hall. destruct (Hall _ _ Hg) as [Hsecs Hall'].
  rewrite Forall_lookup in Hall'. specialize (Hall' _ _ Hc).
  apply lookup_lt_Some in Hg, Hc, Ht. lia.
Qed.

(** X13: [findProperty] returns the invalid index exactly when no setting
    holds the pointer.  In a registry whose vectors have fewer than 2^31
    elements, a valid index it returns is one at which [property] gives the
    pointer, and it is the least such index in the order of groups, then
    sections, then settings. *)
Theorem findProperty_spec (s : Settings) (prop : option Addr) :
  (findProperty s prop = None <-> forall e, e ∈ settings_paths s -> e.2 <> prop) /\
  (int_sized s ->
   forall index,
     findProperty s prop = Some index ->
     Settings_property s index = Some prop /\
     forall index', Settings_property s index' = Some prop ->
       SettingIndex_le index index').
Proof.
  split; [apply findProperty_None|].
  intros Hsized index Hfind.
  apply findProperty_Some in Hfind
    as (gi & ci & ti & g & c & t & Hg & Hc & Ht & Hprop & -> & Htmin & Hcmin & Hgmin).
  destruct (int_sized_lookup s gi ci ti g c t Hsized Hg Hc Ht) as (Hgi & Hci & Hti).
  rewrite !int_cast_small by lia. split.
  - apply Settings_property_Some. exists c, t. simpl. split; [|split; [|done]].
    + apply section_Some. exists g. simpl. unfold group. simpl.
      by rewrite !at_of_nat.
    + by rewrite at_of_nat.
  - intros index' (c' & t' & Hc' & Ht' & Hprop')%Settings_property_Some.
    apply section_Some in Hc' as (g' & Hg' & Hc').
    apply at_Some in Hg' as [Hgi' Hg']. apply at_Some in Hc' as [Hci' Hc'].
    apply at_Some in Ht' as [Hti' Ht'].
    unfold SettingIndex_le. simpl.
    destruct (decide (Z.to_nat (group_get (section_group (setting_section index'))) < gi)%nat)
      as [Hlt|Hge]; [by destruct (Hgmin _ _ _ _ _ _ Hlt Hg' Hc' Ht')|].
    destruct (decide (gi = Z.to_nat (group_get (section_group (setting_section index')))))
      as [Heq|Hne]; [|left; lia].
    right. split; [lia|]. subst gi. assert (g' = g) as -> by congruence.
    destruct (decide (Z.to_nat (section_get (setting_section index')) < ci)%nat)
      as [Hlt|Hge']; [by destruct (Hcmin _ _ _ _ Hlt Hc' Ht')|].
    destruct (decide (ci = Z.to_nat (section_get (setting_section index'))))
      as [Heq|Hne]; [|left; lia].
    right. split; [lia|]. subst ci. assert (c' = c) as -> by congruence.
    destruct (decide (Z.to_nat (setting_get index') < ti)%nat)
      as [Hlt|Hge'']; [by destruct (Htmin _ _ Hlt Ht')|].
    lia.
Qed.

(** The same on an example: the property at address 1 in the registry of
    the properties at 0, 1 and again 1. *)
Lemma findProperty_spec_witness :
  findProperty (Sample.exportRegistry [0%nat; 1%nat; 1%nat]) (Some 1%nat)
    = Some (mkSettingIndex (mkSectionIndex (mkGroupIndex 0) 0) 1) /\
  Settings_property (Sample.exportRegistry [0%nat; 1%nat; 1%nat])
    (mkSettingIndex (mkSectionIndex (mkGroupIndex 0) 0) 1) = Some (Some 1%nat).
Proof.
  assert (Hfind : findProperty (Sample.exportRegistry [0%nat; 1%nat; 1%nat]) (Some 1%nat)
                  = Some (mkSettingIndex (mkSectionIndex (mkGroupIndex 0) 0) 1))
    by (vm_compute; reflexivity).
  split; [exact Hfind|].
  destruct (findProperty_spec (Sample.exportRegistry [0%nat; 1%nat; 1%nat]) (Some 1%nat))
    as [_ Hsound].
  apply Hsound; [|exact Hfind].
  unfold int_sized. set (v := m_vecGroup _). vm_compute in v. subst v.
  split; [reflexivity|]. repeat (constructor; try reflexivity).
Defined.

Lemma findProperty_None_lookup (s : Settings) (prop : option Addr) :
  findProperty s prop = None ->
  forall (gi ci ti : nat) g c t,
    m_vecGroup s !! gi = Some g -> vecSection g !! ci = Some c ->
    vecSetting c !! ti = Some t -> property t <> prop.
Proof.
  unfold findProperty. rewrite find_from_None.
  intros Hnone gi ci ti g c t Hg Hc Ht.
  specialize (Hnone gi g Hg). simpl in Hnone.
  rewrite find_from_None in Hnone. specialize (Hnone ci c Hc). simpl in Hnone.
  rewrite find_from_None in Hnone. specialize (Hnone ti t Ht). simpl in Hnone.
  by case_decide.
Qed.

(** X14: in a registry whose vectors have fewer than 2^31 - 1 elements, a
    pointer that no setting holds is found, right after it was added to an
    existing section, at the index [addSetting] returned for it. *)
Theorem findProperty_after_addSetting (prop : option Addr) (index : SectionIndex)
    (s : Settings) (g : Settings_Group) (c : Settings_Section) :
  group s (section_group index) = Some g ->
  section s index = Some c ->
  int_sized s ->
  Z.of_nat (length (vecSetting c)) < 2 ^ 31 - 1 ->
  findProperty s prop = None ->
  exists settingIndex s1,
    addSetting_Section prop index s = Some (settingIndex, s1) /\
    findProperty s1 prop = Some settingIndex.
Proof.
  intros Hg Hc Hsized Hsize Hnone.
  assert (Hat : at_ (vecSection g) (section_get index) = Some c).
  { apply section_Some in Hc as (g0 & Hg0 & Hc). congruence. }
  set (c' := set_vecSetting (vecSetting c ++ [{| property := prop |}]) c).
  destruct (put_section_eq s index g c c' Hg Hat) as (Hput & Hsec & _).
  set (g' := set_vecSection (<[Z.to_nat (section_get index) := c']> (vecSection g)) g) in *.
  set (s1 := put_group (section_group index) g' s) in *.
  unfold addSetting_Section. rewrite Hc. simpl. fold c'. rewrite Hput. simpl.
  rewrite length_app, Nat2Z.inj_add. simpl. rewrite int_cast_pred.
  rewrite int_cast_small by lia.
  eexists _, _. split; [reflexivity|].
  apply at_Some in Hg as [Hgi Hg]. apply at_Some in Hat as [Hci Hat].
  assert (Hs1 : m_vecGroup s1 = <[Z.to_nat (group_get (section_group index)) := g']> (m_vecGroup s))
    by reflexivity.
  assert (Hglt := lookup_lt_Some _ _ _ Hg). assert (Hclt := lookup_lt_Some _ _ _ Hat).
  destruct (findProperty s1 prop) as [found|] eqn:Hfind.
  - apply findProperty_Some in Hfind
      as (gi & ci & ti & g1 & c1 & t1 & Hg1 & Hc1 & Ht1 & Hprop & -> & _).
    assert (Hpos : gi = Z.to_nat (group_get (section_group index)) /\
                   ci = Z.to_nat (section_get index) /\
                   ti = length (vecSetting c)).
    { rewrite Hs1 in Hg1.
      destruct (decide (gi = Z.to_nat (group_get (section_group index)))) as [->|Hne].
      - rewrite list_lookup_insert_eq in Hg1 by done. injection Hg1 as <-.
        simpl in Hc1.
        destruct (decide (ci = Z.to_nat (section_get index))) as [->|Hne].
        + rewrite list_lookup_insert_eq in Hc1 by done. injection Hc1 as <-.
          simpl in Ht1.
          destruct (decide (ti < length (vecSetting c))%nat) as [Hlt|Hge].
          * rewrite lookup_app_l in Ht1 by done.
            by destruct (findProperty_None_lookup s prop Hnone _ _ _ _ _ _ Hg Hat Ht1).
          * apply lookup_lt_Some in Ht1 as Hlt. rewrite length_app in Hlt. simpl in Hlt.
            split; [done|]. split; [done|]. lia.
        + rewrite list_lookup_insert_ne in Hc1 by done.
          by destruct (findProperty_None_lookup s prop Hnone _ _ _ _ _ _ Hg Hc1 Ht1).
      - rewrite list_lookup_insert_ne in Hg1 by done.
        by destruct (findProperty_None_lookup s prop Hnone _ _ _ _ _ _ Hg1 Hc1 Ht1). }
    destruct Hpos as (-> & -> & ->).
    destruct Hsized as [Hgroups Hall]. rewrite Forall_lookup in Hall.
    destruct (Hall _ _ Hg) as [Hsecs _].
    rewrite !Z2Nat.id by done.
    rewrite !int_cast_small by lia.
    destruct index as [[zg] zc]. reflexivity.
  - exfalso. rewrite findProperty_None in Hfind.
    apply (Hfind (sectionPath g' c', prop)); [|done].
    unfold settings_paths.
    apply list_elem_of_bind. exists g'. split.
    + apply list_elem_of_bind. exists c'. split.
      * apply list_elem_of_bind. exists {| property := prop |}. split.
        -- by apply list_elem_of_singleton.
        -- simpl. apply elem_of_app. right. by apply list_elem_of_singleton.
      * simpl. eapply list_elem_of_lookup_2. by apply list_lookup_insert_eq.
    + rewrite Hs1. eapply list_elem_of_lookup_2. by apply list_lookup_insert_eq.
Qed.

(** The same on an example: the property at address 5, new to the registry
    of the properties at 0 and 1. *)
Lemma findProperty_after_addSetting_witness :
  exists settingIndex s1,
    addSetting_Section (Some 5%nat) (mkSectionIndex (mkGroupIndex 0) 0)
      (Sample.exportRegistry [0%nat; 1%nat]) = Some (settingIndex, s1) /\
    findProperty s1 (Some 5%nat) = Some settingIndex.
Proof.
  assert (Hgroup : exists g c,
            group (Sample.exportRegistry [0%nat; 1%nat]) (mkGroupIndex 0) = Some g /\
            section (Sample.exportRegistry [0%nat; 1%nat])
              (mkSectionIndex (mkGroupIndex 0) 0) = Some c /\
            length (vecSetting c) = 2%nat).
  { eexists _, _. split; [vm_compute; reflexivity|].
    split; [vm_compute; reflexivity | reflexivity]. }
  destruct Hgroup as (g & c & Hg & Hc & Hlen).
  apply (findProperty_after_addSetting (Some 5%nat) (mkSectionIndex (mkGroupIndex 0) 0)
           (Sample.exportRegistry [0%nat; 1%nat]) g c Hg Hc).
  - unfold int_sized. set (v := m_vecGroup _). vm_compute in v. subst v.
    split; [reflexivity|]. repeat (constructor; try reflexivity).
  - rewrite Hlen. reflexivity.
  - vm_compute. reflexivity.
Defined.

(** ** The shape of a registry built by its operations *)

Lemma well_shaped_put_group (s : Settings) (index : GroupIndex) (g g' : Settings_Group) :
  well_shaped s ->
  group s index = Some g ->
  key (grp_identifier g') = key (grp_identifier g) ->
  well_shaped_group g' ->
  well_shaped (put_group index g' s).
Proof.
  intros (Hgroups & Hnodup & Hresets) [_ Hg]%at_Some Hkey Hshape.
  split; [|split; [|done]].
  - rewrite m_vecGroup_put_group. apply Forall_insert; [done|].
    split; [|done]. rewrite Hkey.
    rewrite Forall_lookup in Hgroups. by destruct (Hgroups _ _ Hg).
  - rewrite m_vecGroup_put_group, list_fmap_insert. simpl.
    rewrite list_insert_id; [done|]. rewrite list_lookup_fmap, Hg. simpl. by rewrite Hkey.
Qed.

Lemma bounded_put_group (k : nat) (s : Settings) (index : GroupIndex) (g' : Settings_Group) :
  bounded k s ->
  (length (vecSection g') <= S k)%nat ->
  bounded k (put_group index g' s).
Proof.
  intros [Hlen Hall] Hg'. split.
  - by rewrite m_vecGroup_put_group, length_insert.
  - rewrite m_vecGroup_put_group.
    destruct (decide (Z.to_nat (group_get index) < length (m_vecGroup s))%nat).
    + by apply Forall_insert.
    + by rewrite list_insert_ge by lia.
Qed.

Lemma bounded_mono (k : nat) (s : Settings) : bounded k s -> bounded (S k) s.
Proof.
  intros [Hlen Hall]. split; [lia|].
  eapply Forall_impl; [exact Hall|]. simpl. intros g Hg. lia.
Qed.

Lemma bounded_group (k : nat) (s : Settings) (index : GroupIndex) (g : Settings_Group) :
  bounded k s -> group s index = Some g -> (length (vecSection g) <= S k)%nat.
Proof.
  intros [_ Hall] [_ Hg]%at_Some. rewrite Forall_lookup in Hall. by apply (Hall _ _ Hg).
Qed.

(** Replacing a section by one that is default or not as it was, and either
    has the same key or is not the first one and has a valid key. *)
Lemma well_shaped_group_insert (g : Settings_Group) (k : nat) (c c' : Settings_Section) :
  well_shaped_group g ->
  vecSection g !! k = Some c ->
  isDefault c' = isDefault c ->
  (key (sec_identifier c') = key (sec_identifier c) \/
   (k <> 0%nat /\ isValidIdentifier (key (sec_identifier c')) = true)) ->
  well_shaped_group (set_vecSection (<[k := c']> (vecSection g)) g).
Proof.
  intros (c0 & rest & Hsecs & Hdef & Hkey & Hrest) Hk Hsame Hid.
  unfold well_shaped_group. simpl. rewrite Hsecs in *.
  destruct k as [|k]; simpl in *.
  - injection Hk as <-. exists c', rest. split; [done|].
    split; [congruence|]. split; [|done].
    destruct Hid as [->|[? _]]; done.
  - exists c0, (<[k := c']> rest). split; [done|]. split; [done|]. split; [done|].
    apply Forall_insert; [done|].
    rewrite Forall_lookup in Hrest. destruct (Hrest _ _ Hk) as [Hnd Hvalid].
    split; [congruence|]. destruct Hid as [->|[_ ?]]; done.
Qed.

Lemma well_shaped_put_section (k : nat) (s s' : Settings) (index : SectionIndex)
    (c c' : Settings_Section) :
  well_shaped s -> bounded k s ->
  section s index = Some c ->
  isDefault c' = isDefault c ->
  (key (sec_identifier c') = key (sec_identifier c) \/
   (Z.to_nat (section_get index) <> 0%nat /\
    isValidIdentifier (key (sec_identifier c')) = true)) ->
  put_section index c' s = Some s' ->
  well_shaped s' /\ bounded k s'.
Proof.
  intros Hshape Hbound Hc Hsame Hid Hput.
  apply section_Some in Hc as (g & Hg & Hat).
  destruct (put_section_eq s index g c c' Hg Hat) as (Hput' & _).
  rewrite Hput' in Hput. injection Hput as <-.
  assert (Hgshape : well_shaped_group g).
  { destruct Hshape as (Hgroups & _). apply at_Some in Hg as [_ Hg].
    rewrite Forall_lookup in Hgroups. by destruct (Hgroups _ _ Hg). }
  apply at_Some in Hat as [_ Hat]. split.
  - eapply well_shaped_put_group; [done|done|done|].
    by eapply well_shaped_group_insert.
  - apply bounded_put_group; [done|]. simpl. rewrite length_insert.
    by eapply bounded_group.
Qed.

Lemma addResetFunction_Section_callable (index : SectionIndex) (fn : ResetFunction)
    (s : Settings) :
  callable_resets s -> callable_resets (addResetFunction_Section index fn s).
Proof.
  intros Hs. unfold addResetFunction_Section, callable_resets.
  destruct fn as [f|]; [|done]. simpl.
  apply Forall_app. split; [done|]. apply Forall_singleton. simpl. eauto.
Qed.

Lemma addResetFunction_Section_groups (index : SectionIndex) (fn : ResetFunction)
    (s : Settings) :
  m_vecGroup (addResetFunction_Section index fn s) = m_vecGroup s.
Proof. unfold addResetFunction_Section. by destruct fn. Qed.

Lemma addResetFunction_Section_step (k : nat) (index : SectionIndex)
    (fn : ResetFunction) (s : Settings) :
  well_shaped s -> bounded k s ->
  well_shaped (addResetFunction_Section index fn s) /\
  bounded k (addResetFunction_Section index fn s).
Proof.
  intros (? & ? & ?) Hbound. unfold well_shaped, bounded.
  rewrite addResetFunction_Section_groups.
  split; [|done]. split; [done|]. split; [done|].
  by apply addResetFunction_Section_callable.
Qed.

Lemma addGroup_step (k : nat) (identifier : QByteArray) (s s' : Settings)
    (index : GroupIndex) :
  well_shaped s -> bounded k s ->
  addGroup identifier s = Some (index, s') ->
  well_shaped s' /\ bounded (S k) s'.
Proof.
  intros Hshape Hbound Hadd.
  assert (Hnodup : NoDup (key ∘ grp_identifier <$> m_vecGroup s'))
    by (destruct Hshape as (_ & ? & _); by eapply addGroup_keeps_groups_distinct).
  unfold addGroup in Hadd.
  destruct (isValidIdentifier identifier) eqn:Hvalid; [|discriminate].
  destruct (list_find _ _) as [[i g0]|]; injection Hadd as _ <-.
  - split; [done | by apply bounded_mono].
  - destruct Hshape as (Hgroups & _ & Hresets). destruct Hbound as [Hlen Hall].
    split; [split; [|split; [done|done]]|split].
    + simpl. apply Forall_app. split; [done|]. apply Forall_singleton.
      split; [done|]. eexists _, []. by repeat split.
    + simpl. rewrite length_app. simpl. lia.
    + simpl. apply Forall_app. split.
      * eapply Forall_impl; [exact Hall|]. simpl. intros g Hg. lia.
      * apply Forall_singleton. simpl. lia.
Qed.

Lemma addSection_step (k : nat) (index : GroupIndex) (identifier : QByteArray)
    (s s' : Settings) (sectionIndex : SectionIndex) :
  well_shaped s -> bounded k s ->
  addSection index identifier s = Some (sectionIndex, s') ->
  well_shaped s' /\ bounded (S k) s' /\
  exists g,
    group s index = Some g /\ isValidIdentifier identifier = true /\
    sectionIndex = mkSectionIndex index
                     (int_cast (int_cast (Z.of_nat (S (length (vecSection g)))) - 1)) /\
    group s' index
      = Some (set_vecSection
                (vecSection g ++
                 [set_sec_identifier {| trContext := ""; key := identifier |}
                    Settings_Section_init]) g).
Proof.
  intros Hshape Hbound Hadd. unfold addSection in Hadd.
  destruct (isValidIdentifier identifier) eqn:Hvalid; [|discriminate].
  destruct (group s index) as [g|] eqn:Hg; [|discriminate].
  simpl in Hadd. injection Hadd as <- <-.
  assert (Hgshape : well_shaped_group g).
  { destruct Hshape as (Hgroups & _). apply at_Some in Hg as [_ Hg'].
    rewrite Forall_lookup in Hgroups. by destruct (Hgroups _ _ Hg'). }
  split; [|split].
  - eapply well_shaped_put_group; [done|done|done|].
    destruct Hgshape as (c0 & rest & Hsecs & Hdef & Hkey & Hrest).
    exists c0, (rest ++ [set_sec_identifier {| trContext := ""; key := identifier |}
                           Settings_Section_init]).
    simpl. rewrite Hsecs. split; [done|]. split; [done|]. split; [done|].
    apply Forall_app. split; [done|]. by apply Forall_singleton.
  - apply bounded_put_group; [by apply bounded_mono|]. simpl.
    rewrite length_app. simpl. pose proof (bounded_group _ _ _ _ Hbound Hg). lia.
  - exists g. split; [done|]. split; [done|]. split.
    + rewrite length_app. simpl. by rewrite Nat.add_1_r.
    + by eapply group_put_group.
Qed.

(** One operation keeps the shape. *)
Lemma perform_step (k : nat) (op : Operation) (s s' : Settings) :
  well_shaped s -> bounded k s -> Z.of_nat k < 2 ^ 31 - 2 ->
  perform op s = Some s' ->
  well_shaped s' /\ bounded (S k) s'.
Proof.
  intros Hshape Hbound Hk Hop.
  destruct op as [identifier|identifier|index title|index identifier|index identifier
                 |index title|prop index|prop index|index fn|index fn]; simpl in Hop.
  - destruct (addGroup identifier s) as [[i s0]|] eqn:Hadd; [|discriminate].
    injection Hop as <-. by eapply addGroup_step.
  - unfold addGroup_TextId in Hop.
    destruct (addGroup (key identifier) s) as [[i s0]|] eqn:Hadd; [|discriminate].
    simpl in Hop. destruct (group s0 i) as [g|] eqn:Hg; [|discriminate].
    simpl in Hop. injection Hop as <-.
    destruct (addGroup_step k _ _ _ _ Hshape Hbound Hadd) as [Hshape0 Hbound0].
    assert (Hvalid : isValidIdentifier (key identifier) = true).
    { unfold addGroup in Hadd. by destruct (isValidIdentifier (key identifier)). }
    destruct (addGroup_designates (key identifier) s Hvalid)
      as (i' & s0' & g' & Hadd' & Hi & Hg' & Hkey).
    { destruct Hbound as [Hlen _]. lia. }
    rewrite Hadd in Hadd'. injection Hadd' as <- <-.
    assert (g' = g) as ->.
    { apply at_Some in Hg as [_ Hg]. congruence. }
    split.
    + eapply well_shaped_put_group; [done|done|by simpl|].
      destruct Hshape0 as (Hgroups & _). rewrite Forall_lookup in Hgroups.
      by destruct (Hgroups _ _ Hg').
    + apply bounded_put_group; [done|]. simpl. by eapply bounded_group.
  - unfold setGroupTitle in Hop. destruct (group s index) as [g|] eqn:Hg; [|discriminate].
    simpl in Hop. injection Hop as <-. split.
    + eapply well_shaped_put_group; [done|done|done|].
      destruct Hshape as (Hgroups & _). apply at_Some in Hg as [_ Hg'].
      rewrite Forall_lookup in Hgroups. by destruct (Hgroups _ _ Hg').
    + apply bounded_put_group; [by apply bounded_mono|]. simpl.
      pose proof (bounded_group _ _ _ _ Hbound Hg). lia.
  - destruct (addSection index identifier s) as [[i s0]|] eqn:Hadd; [|discriminate].
    injection Hop as <-.
    by destruct (addSection_step k _ _ _ _ _ Hshape Hbound Hadd) as (? & ? & _).
  - unfold addSection_TextId in Hop.
    destruct (addSection index (key identifier) s) as [[i s0]|] eqn:Hadd; [|discriminate].
    simpl in Hop. destruct (section s0 i) as [c|] eqn:Hc; [|discriminate].
    simpl in Hop.
    destruct (put_section i (set_sec_identifier identifier c) s0) as [s1|] eqn:Hput;
      [|discriminate].
    simpl in Hop. injection Hop as <-.
    destruct (addSection_step k _ _ _ _ _ Hshape Hbound Hadd)
      as (Hshape0 & Hbound0 & g & Hg & Hvalid & -> & Hg0).
    pose proof (bounded_group _ _ _ _ Hbound Hg) as Hsecs.
    assert (Hgshape : (0 < length (vecSection g))%nat).
    { destruct Hshape as (Hgroups & _). apply at_Some in Hg as [_ Hg'].
      rewrite Forall_lookup in Hgroups.
      destruct (Hgroups _ _ Hg') as [_ (c0 & rest & -> & _)]. simpl. lia. }
    assert (Hpos : int_cast (int_cast (Z.of_nat (S (length (vecSection g)))) - 1)
                   = Z.of_nat (length (vecSection g))).
    { rewrite Nat2Z.inj_succ. unfold Z.succ. rewrite int_cast_pred.
      apply int_cast_small. lia. }
    rewrite Hpos in Hc, Hput.
    assert (Hcnew : c = set_sec_identifier {| trContext := ""; key := key identifier |}
                          Settings_Section_init).
    { apply section_Some in Hc as (g0 & Hg0' & Hc). simpl in *.
      rewrite Hg0 in Hg0'. injection Hg0' as <-. simpl in Hc.
      rewrite at_of_nat, lookup_app_r in Hc by lia.
      rewrite Nat.sub_diag in Hc. by injection Hc as <-. }
    eapply (well_shaped_put_section (S k)); [done|done|exact Hc| | |exact Hput].
    + by rewrite Hcnew.
    + right. simpl. rewrite Nat2Z.id. split; [lia|done].
  - unfold setSectionTitle in Hop.
    destruct (section s index) as [c|] eqn:Hc; [|discriminate]. simpl in Hop.
    destruct (well_shaped_put_section k s s' index c (set_sec_overridenTitle title c))
      as [? ?]; try done; [by left|].
    split; [done | by apply bounded_mono].
  - unfold addSetting_Section in Hop.
    destruct (section s index) as [c|] eqn:Hc; [|discriminate]. simpl in Hop.
    destruct (put_section index _ s) as [s1|] eqn:Hput; [|discriminate].
    simpl in Hop. injection Hop as <-.
    destruct (well_shaped_put_section k s s1 index c _ Hshape Hbound Hc
                (eq_refl : isDefault (set_vecSetting
                             (vecSetting c ++ [{| property := prop |}]) c) = isDefault c)
                (or_introl eq_refl) Hput) as [? ?].
    split; [done | by apply bounded_mono].
  - destruct (group s index) as [g|] eqn:Hg.
    + destruct (addSetting_Group_section0 prop _ _ _ Hg)
        as (idx & s2 & g2 & c2 & Hadd & _ & Hs2 & _ & Hgid & Hsecs & _ & Hdef & Hcid & _).
      rewrite Hadd in Hop. injection Hop as <-.
      assert (Hgshape : well_shaped_group g).
      { destruct Hshape as (Hgroups & _). apply at_Some in Hg as [_ Hg'].
        rewrite Forall_lookup in Hgroups. by destruct (Hgroups _ _ Hg'). }
      destruct Hgshape as (c0 & rest & Hvec & Hdef0 & Hkey0 & Hrest).
      assert (Hdefault : default_section_of g = (c0, rest)).
      { unfold default_section_of. by rewrite Hvec. }
      rewrite Hdefault in *. simpl in *. rewrite Hs2. split.
      * eapply well_shaped_put_group; [done|done|by rewrite Hgid|].
        exists c2, rest. split; [done|]. split; [done|]. split; [|done].
        by rewrite Hcid.
      * apply bounded_put_group; [by apply bounded_mono|]. rewrite Hsecs.
        pose proof (bounded_group _ _ _ _ Hbound Hg) as Hlen.
        rewrite Hvec in Hlen. simpl in *. lia.
    + unfold addSetting_Group in Hop. by rewrite Hg in Hop.
  - injection Hop as <-. unfold addResetFunction_Group.
    destruct (addResetFunction_Section_step k (mkSectionIndex index 0) fn s) as [? ?];
      [done|done|].
    split; [done | by apply bounded_mono].
  - injection Hop as <-.
    destruct (addResetFunction_Section_step k index fn s) as [? ?]; [done|done|].
    split; [done | by apply bounded_mono].
Qed.

Lemma performAll_steps (ops : list Operation) (k : nat) (s s' : Settings) :
  well_shaped s -> bounded k s ->
  Z.of_nat (k + length ops) < 2 ^ 31 - 1 ->
  performAll ops s = Some s' ->
  well_shaped s'.
Proof.
  unfold performAll. revert k s.
  induction ops as [|op ops IH]; intros k s Hshape Hbound Hk; simpl.
  - by intros [= <-].
  - destruct (perform op s) as [s1|] eqn:Hop; [|done]. simpl.
    destruct (perform_step k op s s1 Hshape Hbound) as [Hshape1 Hbound1];
      [simpl in Hk; lia | done |].
    apply (IH (S k)); [done|done|]. simpl in Hk. lia.
Qed.

(** X15: after fewer than 2^31 - 1 calls of the operations that change a
    registry, made on a new registry and none of which ended abnormally,
    every group has a valid identifier, the identifiers of the groups are
    pairwise distinct, the first section of every group is its default
    section and has the empty identifier, every other section is not default
    and has a valid identifier, and every registered reset function is
    callable.  So a setting added directly under a group of such a registry
    is persisted under the key of the group followed by a slash, an empty
    section segment: the sentinel [DEFAULT] is never used. *)
Theorem well_shaped_reachable (ops : list Operation) (s : Settings) :
  Z.of_nat (length ops) < 2 ^ 31 - 1 ->
  performAll ops Settings_new = Some s ->
  well_shaped s /\
  forall prop index g,
    group s index = Some g ->
    exists settingIndex s2,
      addSetting_Group prop index s = Some (settingIndex, s2) /\
      sectionPath_index s2 (setting_section settingIndex)
        = Some (key (grp_identifier g) +:+ "/").
Proof.
  intros Hlen Hrun.
  assert (Hshape : well_shaped s).
  { apply (performAll_steps ops 0 Settings_new s); [| |done|done].
    - split; [apply Forall_nil_2|]. split; [apply NoDup_nil_2 | apply Forall_nil_2].
    - split; [simpl; lia | apply Forall_nil_2]. }
  split; [exact Hshape|].
  intros prop index g Hg.
  destruct (addSetting_Group_section0 prop _ _ _ Hg)
    as (idx & s2 & g2 & c2 & Hadd & Hidx & _ & Hg2 & Hgid & _ & Hc2 & _ & Hcid & _).
  exists idx, s2. split; [exact Hadd|].
  assert (Hgshape : well_shaped_group g).
  { destruct Hshape as (Hgroups & _). apply at_Some in Hg as [_ Hg'].
    rewrite Forall_lookup in Hgroups. by destruct (Hgroups _ _ Hg'). }
  destruct Hgshape as (c0 & rest & Hvec & Hdef0 & Hkey0 & _).
  assert (Hdefault : default_section_of g = (c0, rest)).
  { unfold default_section_of. by rewrite Hvec. }
  rewrite Hdefault in Hcid. simpl in Hcid.
  rewrite Hidx. unfold sectionPath_index. simpl. rewrite Hg2, Hc2. simpl.
  unfold sectionPath. by rewrite Hgid, Hcid, Hkey0.
Qed.

(** The same on an example: two groups, a section and settings. *)
Lemma well_shaped_reachable_witness :
  exists s,
    performAll [OpAddGroup "Export"; OpAddSection (mkGroupIndex 0) "Mesh";
                OpAddSettingGroup (Some 0%nat) (mkGroupIndex 0);
                OpAddGroupTextId (MAYO_TEXT_ID "Mayo::IO" "Import");
                OpAddSettingSection (Some 1%nat) (mkSectionIndex (mkGroupIndex 0) 1)]
      Settings_new = Some s /\
    well_shaped s.
Proof.
  set (ops := [OpAddGroup "Export"; _; _; _; _]).
  eexists. split; [vm_compute; reflexivity|].
  refine (proj1 (well_shaped_reachable ops _ _ _)); [reflexivity | vm_compute; reflexivity].
Defined.

(** ** Resetting one section *)

Lemma omap_sublist {A B : Type} (f : A -> option B) (l1 l2 : list A) :
  sublist l1 l2 -> sublist (omap f l1) (omap f l2).
Proof.
  induction 1 as [|x l1 l2 _ IH|x l1 l2 _ IH]; simpl.
  - constructor.
  - destruct (f x); [by constructor | done].
  - destruct (f x); [by constructor | done].
Qed.

(** X16: in a registry whose registered reset functions are all callable,
    [resetSection] returns after calling exactly the functions registered for
    that section, in the order of registration; they are among the calls of
    [resetGroup] on the group of the section, in the same order, which are
    among the calls of [resetAll].  A function registered through
    [addResetFunction] on a group is then called by [resetSection] on the
    section 0 of that group, after the functions registered there before, and
    by [resetSection] on no other section. *)
Theorem resetSection_invokes_exactly (s : Settings) (index : SectionIndex) :
  callable_resets s ->
  exists evsSection evsGroup evsAll,
    resetSection index s = Some evsSection /\
    resetGroup (section_group index) s = Some evsGroup /\
    resetAll s = Some evsAll /\
    evsSection
      = invocations_of (filter (fun r => sectionId r = index) (m_vecSectionResetFn s)) /\
    sublist evsSection evsGroup /\ sublist evsGroup evsAll /\
    forall g f,
      resetSection index (addResetFunction_Group g (Some f) s)
      = Some (if decide (index = mkSectionIndex g 0)
              then evsSection ++ [invoke f] else evsSection).
Proof.
  intros Hs. eexists _, _, _.
  split; [by apply resetSection_eq|]. split; [by apply resetGroup_eq|].
  split; [by apply resetAll_eq|]. split; [done|].
  split; [|split].
  - apply omap_sublist.
    rewrite <- (list_filter_filter_l (fun r => sectionId r = index)
                  (fun r => section_group (sectionId r) = section_group index))
      by (by intros r ->).
    apply sublist_filter.
  - apply omap_sublist, sublist_filter.
  - intros g f.
    rewrite resetSection_eq.
    + unfold addResetFunction_Group, addResetFunction_Section. simpl.
      rewrite filter_app, invocations_of_app. f_equal.
      rewrite filter_cons, filter_nil. simpl.
      destruct (decide (index = mkSectionIndex g 0)) as [->|Hne].
      * by rewrite decide_True.
      * rewrite decide_False by done. unfold invocations_of. simpl.
        by rewrite app_nil_r.
    + unfold addResetFunction_Group, addResetFunction_Section, callable_resets. simpl.
      apply Forall_app. split; [done|]. apply Forall_singleton. simpl. eauto.
Qed.

(** The same on an example: two functions for two sections of one group. *)
Lemma resetSection_invokes_exactly_witness :
  let s := addResetFunction_Section (mkSectionIndex (mkGroupIndex 0) 1) (Some 7%nat)
             (addResetFunction_Group (mkGroupIndex 0) (Some 5%nat) Settings_new) in
  exists evsSection evsGroup evsAll,
    resetSection (mkSectionIndex (mkGroupIndex 0) 1) s = Some evsSection /\
    resetGroup (mkGroupIndex 0) s = Some evsGroup /\
    resetAll s = Some evsAll /\
    evsSection = [invoke 7%nat] /\
    sublist evsSection evsGroup /\ sublist evsGroup evsAll.
Proof.
  intros s.
  destruct (resetSection_invokes_exactly s (mkSectionIndex (mkGroupIndex 0) 1))
    as (evsSection & evsGroup & evsAll & H1 & H2 & H3 & H4 & H5 & H6 & _).
  - repeat constructor; simpl; eauto.
  - exists evsSection, evsGroup, evsAll. by repeat split.
Defined.

(** ** Loading and saving a whole registry *)

Lemma same_kind_refl (d : PropertyData) : same_kind d d.
Proof. by destruct d. Qed.

Lemma same_kind_trans (d1 d2 d3 : PropertyData) :
  same_kind d1 d2 -> same_kind d2 d3 -> same_kind d1 d3.
Proof.
  destruct d1, d2; simpl; try done; destruct d3; simpl; try done; congruence.
Qed.

Lemma same_property_refl (p : Property) : same_property p p.
Proof. split; [done | apply same_kind_refl]. Qed.

Lemma same_property_trans (p1 p2 p3 : Property) :
  same_property p1 p2 -> same_property p2 p3 -> same_property p1 p3.
Proof.
  intros [Hn1 Hk1] [Hn2 Hk2]. split; [congruence | by eapply same_kind_trans].
Qed.

Lemma same_objects_refl (heap : gmap nat Property) (a : nat) :
  option_Forall2 same_property (heap !! a) (heap !! a).
Proof.
  destruct (heap !! a); constructor. apply same_property_refl.
Qed.

Lemma same_objects_trans (o1 o2 o3 : option Property) :
  option_Forall2 same_property o1 o2 -> option_Forall2 same_property o2 o3 ->
  option_Forall2 same_property o1 o3.
Proof.
  intros H12 H23. destruct H12; inversion H23; subst; constructor.
  by eapply same_property_trans.
Qed.

Section PersistenceMore.

Context `{Collaborators}.

#[local] Arguments fromVariant : simpl never.
#[local] Arguments toVariant : simpl never.

(** One visit of [loadFrom] keeps the objects, their names and kinds, and
    the events logged before. *)
Lemma load_visit_kind (s : Settings) (source : gmap string QVariant)
    (fnExclude : ExcludePropertyPredicate) (e : QString * option Addr)
    (st st' : gmap nat Property * list Event) :
  load_visit s source fnExclude e st = Some st' ->
  (forall a, option_Forall2 same_property (st.1 !! a) (st'.1 !! a)) /\
  exists more, st'.2 = st.2 ++ more.
Proof.
  unfold load_visit. intros Hvisit.
  assert (Hsame : (forall a, option_Forall2 same_property (st.1 !! a) (st.1 !! a)) /\
                  exists more, st.2 = st.2 ++ more).
  { split; [intros a; apply same_objects_refl | exists []; by rewrite app_nil_r]. }
  destruct (notExcluded fnExclude e.2 st.1) as [[|]|];
    simpl in Hvisit; [|by injection Hvisit as <-|done].
  unfold loadPropertyFrom in Hvisit.
  destruct e.2 as [a'|]; [|by injection Hvisit as <-].
  destruct (st.1 !! a') as [p|] eqn:Hp; [|done]. simpl in Hvisit.
  destruct (contains source _); [|by injection Hvisit as <-].
  destruct (fromVariant_same_property (m_propValueConverter s) p
              (value source (e.1 +:+ "/" +:+ key (name p)))) as (p' & Hp' & Hkept).
  destruct (fromVariant (m_propValueConverter s) (Some p) _) as [[ok r] evs].
  simpl in Hp'. subst r. injection Hvisit as <-. simpl. split; [|by eexists].
  intros a. destruct (decide (a' = a)) as [->|Hne].
  - rewrite lookup_insert_eq, Hp. by constructor.
  - rewrite lookup_insert_ne by done. apply same_objects_refl.
Qed.

Lemma load_kind (s : Settings) (source : gmap string QVariant)
    (fnExclude : ExcludePropertyPredicate) (l : list (QString * option Addr)) :
  forall st st',
    for_each (load_visit s source fnExclude) l st = Some st' ->
    (forall a, option_Forall2 same_property (st.1 !! a) (st'.1 !! a)) /\
    exists more, st'.2 = st.2 ++ more.
Proof.
  induction l as [|e l IH]; intros st st'; simpl.
  - intros [= <-]. split; [intros a; apply same_objects_refl|].
    exists []. by rewrite app_nil_r.
  - destruct (load_visit s source fnExclude e st) as [st1|] eqn:Hvisit; [|done].
    simpl. intros Hrun.
    destruct (load_visit_kind _ _ _ _ _ _ Hvisit) as [Hobj1 [more1 Hevs1]].
    destruct (IH _ _ Hrun) as [Hobj2 [more2 Hevs2]].
    split.
    + intros a. by eapply same_objects_trans.
    + exists (more1 ++ more2). by rewrite Hevs2, Hevs1, app_assoc.
Qed.

(** X17: on a registry whose settings point to live properties, [loadFrom]
    returns, whatever the source and the predicate; afterwards the same
    addresses hold objects, each with the name and the dynamic type it had,
    the same enumeration and the same declared unit; an object no setting
    points to is as it was; and the events logged before are kept, new ones
    come after them. *)
Theorem loadFrom_keeps_objects (s : Settings) (source : gmap string QVariant)
    (fnExclude : ExcludePropertyPredicate) (heap : gmap nat Property)
    (evs : list Event) :
  live_settings s heap ->
  exists heap' more,
    loadFrom s source fnExclude (heap, evs) = Some (heap', evs ++ more) /\
    (forall a, option_Forall2 same_property (heap !! a) (heap' !! a)) /\
    (forall a, (forall sp, (sp, Some a) ∉ settings_paths s) -> heap' !! a = heap !! a).
Proof.
  intros Hlive.
  destruct (load_total s source fnExclude heap _ Hlive (heap, evs))
    as ([heap' evs'] & Hload); [done|].
  destruct (load_kind _ _ _ _ _ _ Hload) as [Hobj [more Hevs]]. simpl in *. subst evs'.
  exists heap', more. split; [by rewrite loadFrom_flat|]. split; [exact Hobj|].
  intros a Ha.
  apply (load_frame s source fnExclude a (settings_paths s)) with (st := (heap, evs))
                                                                 (st' := (heap', evs ++ more));
    [|done].
  apply Forall_forall. intros [sp prop] Hin Heq. simpl in Heq. subst prop.
  by apply (Ha sp).
Qed.

(** X18: when the source has no entry at the path of any setting that is
    not excluded, [loadFrom] returns and changes no property and logs
    nothing; so it is with an empty source. *)
Theorem loadFrom_missing_entries (s : Settings) (source : gmap string QVariant)
    (fnExclude : ExcludePropertyPredicate) (st : gmap nat Property * list Event) :
  live_settings s st.1 ->
  (forall sp a p, (sp, Some a) ∈ settings_paths s -> st.1 !! a = Some p ->
     excludes fnExclude a p = false -> contains source (settingPath sp p) = false) ->
  loadFrom s source fnExclude st = Some st.
Proof.
  rewrite loadFrom_flat. unfold live_settings.
  induction 1 as [|[sp prop] l (a & Hprop & [p Hp]) _ IH]; intros Hmissing; simpl;
    [done|].
  simpl in Hprop. subst prop.
  assert (Hvisit : load_visit s source fnExclude (sp, Some a) st = Some st).
  { unfold load_visit. simpl. rewrite (notExcluded_live _ _ _ _ Hp). simpl.
    destruct (excludes fnExclude a p) eqn:Hex; simpl; [done|].
    rewrite Hp. simpl. fold (settingPath sp p).
    rewrite (Hmissing sp a p); [done|by left|done|done]. }
  rewrite Hvisit. simpl. apply IH.
  intros sp0 a0 p0 Hin. apply Hmissing. by right.
Qed.

(** The setting an index designates is among the settings visited, under the
    path of its section. *)
Lemma Settings_property_visited (s : Settings) (index : SettingIndex)
    (prop : option Addr) :
  Settings_property s index = Some prop ->
  exists sp,
    sectionPath_index s (setting_section index) = Some sp /\
    (sp, prop) ∈ settings_paths s.
Proof.
  intros (c & t & Hc & Ht & Hprop)%Settings_property_Some.
  pose proof Hc as (g & Hg & Hat)%section_Some.
  exists (sectionPath g c). split.
  - unfold sectionPath_index. by rewrite Hg, Hc.
  - unfold settings_paths.
    apply at_Some in Hg as [_ Hg]. apply at_Some in Hat as [_ Hat].
    apply at_Some in Ht as [_ Ht].
    apply list_elem_of_bind. exists g. split; [|by eapply list_elem_of_lookup_2].
    apply list_elem_of_bind. exists c. split; [|by eapply list_elem_of_lookup_2].
    apply list_elem_of_bind. exists t. split; [|by eapply list_elem_of_lookup_2].
    rewrite <- Hprop. apply list_elem_of_here.
Qed.

(** What one visit without predicate leaves at the address it visits. *)
Lemma load_visit_result (s : Settings) (source : gmap string QVariant)
    (sp : QString) (a : nat) (p : Property) (st : gmap nat Property * list Event) :
  st.1 !! a = Some p ->
  exists st',
    load_visit s source None (sp, Some a) st = Some st' /\
    st'.1 !! a =
      if contains source (settingPath sp p)
      then (fromVariant (m_propValueConverter s) (Some p)
              (value source (settingPath sp p))).1.2
      else Some p.
Proof.
  intros Hp.
  destruct (load_visit_total s source None sp a st) as (st' & Hvisit & _); [by eauto|].
  exists st'. split; [done|].
  apply (load_processed s source None a p sp [] [] (Forall_nil_2 _) eq_refl st st' Hp).
  simpl. by rewrite Hvisit.
Qed.

(** X19: [loadPropertyFrom] on the index of a setting whose pointer is live
    does what [loadFrom] without predicate does when it visits that setting:
    the path is that of the section of the index, a slash and the key of the
    property.  When the property is registered once and all settings are
    live, the property is afterwards what it is after [loadFrom] from the
    same source. *)
Theorem loadPropertyFrom_index_agrees (s : Settings) (source : gmap string QVariant)
    (index : SettingIndex) (a : nat) (p : Property) (heap : gmap nat Property)
    (evs : list Event) :
  Settings_property s index = Some (Some a) ->
  heap !! a = Some p ->
  exists sp heap1 evs1,
    sectionPath_index s (setting_section index) = Some sp /\
    (sp, Some a) ∈ settings_paths s /\
    loadPropertyFrom_index s source index (heap, evs) = Some (heap1, evs1) /\
    load_visit s source None (sp, Some a) (heap, evs) = Some (heap1, evs1) /\
    heap1 !! a =
      (if contains source (settingPath sp p)
       then (fromVariant (m_propValueConverter s) (Some p)
               (value source (settingPath sp p))).1.2
       else Some p) /\
    (registered_once s a sp -> live_settings s heap ->
     exists heap2 evs2,
       loadFrom s source None (heap, evs) = Some (heap2, evs2) /\
       heap2 !! a = heap1 !! a).
Proof.
  intros Hprop Hp.
  destruct (Settings_property_visited _ _ _ Hprop) as (sp & Hsp & Hin).
  destruct (load_visit_result s source sp a p (heap, evs) Hp)
    as ([heap1 evs1] & Hvisit & Hres).
  exists sp, heap1, evs1. split; [done|]. split; [done|].
  split; [|split; [done|split; [done|]]].
  - unfold loadPropertyFrom_index. rewrite Hprop. simpl. rewrite Hsp. simpl.
    revert Hvisit. unfold load_visit. simpl. done.
  - intros (l1 & l2 & Hsplit & Hothers) Hlive.
    destruct (load_total s source None heap _ Hlive (heap, evs))
      as ([heap2 evs2] & Hload); [done|].
    exists heap2, evs2. split; [by rewrite loadFrom_flat|].
    rewrite Hsplit in Hload. simpl in Hres. rewrite Hres.
    exact (load_processed s source None a p sp l1 l2 Hothers eq_refl (heap, evs) _ Hp Hload).
Qed.

End PersistenceMore.

(** The same on an example: two boolean properties and a source with the
    opposite value for both. *)
Lemma loadFrom_keeps_objects_witness :
  exists heap' more,
    loadFrom (H := Sample.collaborators) (Sample.exportRegistry [0%nat; 1%nat])
      Sample.boolStore None (Sample.boolHeap, []) = Some (heap', more) /\
    option_Forall2 same_property (Sample.boolHeap !! 0%nat) (heap' !! 0%nat) /\
    heap' !! 2%nat = None.
Proof.
  assert (Hpaths : settings_paths (Sample.exportRegistry [0%nat; 1%nat])
                   = [("Export/", Some 0%nat); ("Export/", Some 1%nat)])
    by (vm_compute; reflexivity).
  destruct (loadFrom_keeps_objects (H := Sample.collaborators)
              (Sample.exportRegistry [0%nat; 1%nat]) Sample.boolStore None
              Sample.boolHeap [])
    as (heap' & more & Hload & Hobj & Hframe).
  { unfold live_settings. rewrite Hpaths.
    apply Forall_cons. split.
    - exists 0%nat. split; [reflexivity|]. exists (Sample.boolProp "a" true). reflexivity.
    - apply Forall_singleton.
      exists 1%nat. split; [reflexivity|]. exists (Sample.boolProp "b" false). reflexivity. }
  exists heap', more. split; [exact Hload|]. split; [apply Hobj|].
  rewrite Hframe; [reflexivity|].
  intros sp Hin. rewrite Hpaths in Hin.
  apply elem_of_cons in Hin as [Hin|Hin]; [discriminate|].
  apply list_elem_of_singleton in Hin. discriminate.
Defined.

(** The same on an example: two boolean properties and an empty source. *)
Lemma loadFrom_missing_entries_witness :
  loadFrom (H := Sample.collaborators) (Sample.exportRegistry [0%nat; 1%nat])
    ∅ Sample.excludeFirst (Sample.boolHeap, [])
  = Some (Sample.boolHeap, []).
Proof.
  assert (Hpaths : settings_paths (Sample.exportRegistry [0%nat; 1%nat])
                   = [("Export/", Some 0%nat); ("Export/", Some 1%nat)])
    by (vm_compute; reflexivity).
  apply (loadFrom_missing_entries (H := Sample.collaborators)
           (Sample.exportRegistry [0%nat; 1%nat]) ∅ Sample.excludeFirst
           (Sample.boolHeap, [])).
  - unfold live_settings. rewrite Hpaths.
    apply Forall_cons. split.
    + exists 0%nat. split; [reflexivity|]. exists (Sample.boolProp "a" true). reflexivity.
    + apply Forall_singleton.
      exists 1%nat. split; [reflexivity|]. exists (Sample.boolProp "b" false). reflexivity.
  - intros sp a p _ _ _. reflexivity.
Defined.

(** The same on an example: the second of two boolean properties. *)
Lemma loadPropertyFrom_index_agrees_witness :
  exists heap1 evs1,
    loadPropertyFrom_index (H := Sample.collaborators)
      (Sample.exportRegistry [0%nat; 1%nat]) Sample.boolStore
      (mkSettingIndex (mkSectionIndex (mkGroupIndex 0) 0) 1) (Sample.boolHeap, [])
    = Some (heap1, evs1) /\
    heap1 !! 1%nat = Some (Sample.boolProp "b" true).
Proof.
  destruct (loadPropertyFrom_index_agrees (H := Sample.collaborators)
              (Sample.exportRegistry [0%nat; 1%nat]) Sample.boolStore
              (mkSettingIndex (mkSectionIndex (mkGroupIndex 0) 0) 1)
              1%nat (Sample.boolProp "b" false) Sample.boolHeap [])
    as (sp & heap1 & evs1 & Hsp & _ & Hload & _ & Hres & _).
  - vm_compute. reflexivity.
  - reflexivity.
  - exists heap1, evs1. split; [exact Hload|].
    rewrite Hres. vm_compute in Hsp. injection Hsp as <-. vm_compute. reflexivity.
Defined.

(** ** Saving, then looking up or loading *)

Section SaveThenLoad.

Context `{Collaborators}.

#[local] Arguments fromVariant : simpl never.
#[local] Arguments toVariant : simpl never.







End SaveThenLoad.



(** ** Paths that cannot collide *)

Lemma append_slash_inj (a a' b b' : string) :
  has_slash a = false -> has_slash a' = false ->
  a +:+ "/" +:+ b = a' +:+ "/" +:+ b' ->
  a = a' /\ b = b'.
Proof.
  assert (Hnil : forall x, "" +:+ x = x) by reflexivity.
  assert (Hcons : forall c a x, String c a +:+ x = String c (a +:+ x)) by reflexivity.
  revert a'. induction a as [|c a IH]; intros [|c' a']; simpl; rewrite ?Hnil, ?Hcons, ?Hnil.
  - intros _ _ [= ->]. done.
  - intros _ Hslash [= <- _]. discriminate.
  - intros Hslash _ [= -> _]. discriminate.
  - intros [_ Ha]%orb_false_elim [_ Ha']%orb_false_elim [= -> Heq].
    destruct (IH a' Ha Ha' Heq) as [-> ->]. done.
Qed.

Lemma append_assoc (a b c : string) : (a +:+ b) +:+ c = a +:+ (b +:+ c).
Proof.
  assert (Hcons : forall c a x, String c a +:+ x = String c (a +:+ x)) by reflexivity.
  induction a as [|x a IH]; [done | by rewrite !Hcons, IH].
Qed.

(** X22: the paths are texts built from the keys, which are taken as the
    texts [QString::fromUtf8] makes of them.  When the keys of two groups
    have no slash, their sections have the same section path only if the
    groups have the same key and the sections have the same key; when the
    keys of the sections have no slash either, two settings have the same
    path only if, besides, their properties have the same key. *)
Theorem sectionPath_injective (g g' : Settings_Group) (c c' : Settings_Section) :
  has_slash (key (grp_identifier g)) = false ->
  has_slash (key (grp_identifier g')) = false ->
  (sectionPath g c = sectionPath g' c' ->
   key (grp_identifier g) = key (grp_identifier g') /\
   key (sec_identifier c) = key (sec_identifier c')) /\
  (has_slash (key (sec_identifier c)) = false ->
   has_slash (key (sec_identifier c')) = false ->
   forall p p',
     settingPath (sectionPath g c) p = settingPath (sectionPath g' c') p' ->
     key (grp_identifier g) = key (grp_identifier g') /\
     key (sec_identifier c) = key (sec_identifier c') /\
     key (name p) = key (name p')).
Proof.
  intros Hg Hg'. split.
  - unfold sectionPath. by apply append_slash_inj.
  - intros Hc Hc' p p'. unfold settingPath, sectionPath.
    rewrite !append_assoc. intros Heq.
    apply append_slash_inj in Heq as [Hkey Heq]; [|done|done].
    apply append_slash_inj in Heq as [Hsec Hprop]; [|done|done].
    done.
Qed.

(** The same on examples: two groups of key [Export] with different
    translation contexts and titles, sections of key [Mesh] and properties of
    key [a] have one path; the group [Import] has other paths. *)
Lemma sectionPath_injective_witness :
  let g := set_grp_identifier (MAYO_TEXT_ID "Mayo::IO" "Export") Settings_Group_init in
  let g' := set_grp_overridenTitle "Exporting"
              (set_grp_identifier (MAYO_TEXT_ID "Mayo::App" "Export")
                 Settings_Group_init) in
  let g'' := set_grp_identifier (MAYO_TEXT_ID "Mayo::IO" "Import") Settings_Group_init in
  let c := set_sec_identifier (MAYO_TEXT_ID "Mayo::IO" "Mesh") Settings_Section_init in
  let c' := set_isDefault true
              (set_sec_identifier (MAYO_TEXT_ID "Mayo::App" "Mesh")
                 Settings_Section_init) in
  let p := Sample.boolProp "a" true in
  let p' := Sample.boolProp "a" false in
  g <> g' /\ c <> c' /\ p <> p' /\
  (key (grp_identifier g) = key (grp_identifier g') /\
   key (sec_identifier c) = key (sec_identifier c') /\
   key (name p) = key (name p')) /\
  sectionPath g c <> sectionPath g'' c /\
  settingPath (sectionPath g c) p <> settingPath (sectionPath g'' c') p'.
Proof.
  intros g g' g'' c c' p p'.
  split; [discriminate|]. split; [discriminate|]. split; [discriminate|].
  destruct (sectionPath_injective g g' c c') as [_ Hsetting]; [reflexivity..|].
  destruct (sectionPath_injective g g'' c c) as [Hsection _]; [reflexivity..|].
  destruct (sectionPath_injective g g'' c c') as [_ Hsetting'']; [reflexivity..|].
  split; [apply (Hsetting eq_refl eq_refl p p'); reflexivity|]. split.
  - intros Heq. destruct (Hsection Heq) as [Habs _]. discriminate.
  - intros Heq. destruct (Hsetting'' eq_refl eq_refl p p' Heq) as [Habs _]. discriminate.
Defined.

(** ** What [toVariant] logs, and null property pointers *)

Section ConversionLog.

Context `{Collaborators}.


#[local] Arguments fromVariant : simpl never.
#[local] Arguments toVariant : simpl never.

Lemma for_each_None {A S} (body : A -> S -> option S) (l1 l2 : list A) (x : A) :
  (forall st, body x st = None) ->
  forall st, for_each body (l1 ++ x :: l2) st = None.
Proof.
  intros Hx st. rewrite for_each_app.
  destruct (for_each body l1 st) as [st1|]; simpl; [|done]. by rewrite Hx.
Qed.

Lemma for_each_skip {A S} (P : A -> Prop) `{forall x, Decision (P x)}
    (body : A -> S -> option S) (l : list A) :
  (forall x st, ~ P x -> body x st = Some st) ->
  forall st, for_each body l st = for_each body (filter P l) st.
Proof.
  intros Hskip. induction l as [|x l IH]; intros st; [done|].
  rewrite filter_cons. cbn [for_each]. destruct (decide (P x)) as [Hx|Hx].
  - cbn [for_each]. destruct (body x st) as [st1|]; simpl; [apply IH|done].
  - rewrite (Hskip x st Hx). simpl. apply IH.
Qed.

(** X24: [addSetting] takes a null property pointer as it is.  With such a
    setting in the registry, [saveAs] on a non-null target ends abnormally
    unless the predicate excludes the setting without reading the object it
    is handed; then the setting is skipped.  [loadFrom] ends abnormally only
    when the predicate reads that object; with an empty predicate, or one
    that answers without reading, it skips the setting and does what it does
    for the other settings. *)
Theorem null_setting (s : Settings) (sp : QString) :
  (sp, None) ∈ settings_paths s ->
  (forall heap store, saveAs s heap (Some store) None = None) /\
  (forall heap store (f : Predicate),
     on_absent f None <> Some true ->
     saveAs s heap (Some store) (Some f) = None) /\
  (forall heap store (f : Predicate),
     on_absent f None = Some true ->
     saveAs s heap (Some store) (Some f)
     = '(store', evs) ←
         for_each (save_visit s heap (Some f))
           (filter (fun e => is_Some e.2) (settings_paths s)) (store, []);
       Some (Some store', evs)) /\
  (forall source (f : Predicate) st,
     on_absent f None = None -> loadFrom s source (Some f) st = None) /\
  (forall source fnExclude st,
     (forall f : Predicate, fnExclude = Some f -> is_Some (on_absent f None)) ->
     loadFrom s source fnExclude st
     = for_each (load_visit s source fnExclude)
         (filter (fun e => is_Some e.2) (settings_paths s)) st).
Proof.
  intros (l1 & l2 & Hsplit)%list_elem_of_split.
  split; [|split; [|split; [|split]]].
  - intros heap store. rewrite saveAs_flat, Hsplit. by rewrite for_each_None.
  - intros heap store f Hf. rewrite saveAs_flat, Hsplit.
    rewrite for_each_None; [done|].
    intros st. unfold save_visit, notExcluded. simpl.
    destruct (on_absent f None) as [[|]|]; done.
  - intros heap store f Hf. rewrite saveAs_flat.
    rewrite (for_each_skip (fun e => is_Some e.2)); [done|].
    intros [sp0 [a|]] st Hnone; [exfalso; apply Hnone; simpl; eauto|].
    unfold save_visit, notExcluded. simpl. by rewrite Hf.
  - intros source f st Hf. rewrite loadFrom_flat, Hsplit.
    rewrite for_each_None; [done|].
    intros st0. unfold load_visit, notExcluded. simpl. by rewrite Hf.
  - intros source fnExclude st Hf. rewrite loadFrom_flat.
    apply (for_each_skip (fun e => is_Some e.2)).
    intros [sp0 [a|]] st0 Hnone; [exfalso; apply Hnone; simpl; eauto|].
    unfold load_visit, notExcluded. simpl.
    destruct fnExclude as [f|]; [|done].
    destruct (Hf f eq_refl) as [b Hb]. rewrite Hb. simpl. by destruct b.
Qed.

End ConversionLog.

(** The same on an example: a null pointer added directly under a group, a
    predicate that excludes nothing and reads nothing, and one that reads the
    object. *)
Lemma null_setting_witness :
  exists s,
    performAll [OpAddGroup "Export"; OpAddSettingGroup None (mkGroupIndex 0)]
      Settings_new = Some s /\
    saveAs (H := Sample.collaborators) s ∅ (Some ∅)
      (Some (Sample.byAddress (fun _ => false))) = None /\
    loadFrom (H := Sample.collaborators) s ∅
      (Some (Sample.byAddress (fun _ => false))) (∅, []) = Some (∅, []) /\
    loadFrom (H := Sample.collaborators) s ∅ (Some Sample.excludeTrue) (∅, []) = None.
Proof.
  eexists. split; [vm_compute; reflexivity|].
  match goal with
  | |- saveAs ?s _ _ _ = _ /\ _ =>
      destruct (null_setting (H := Sample.collaborators) s "Export/")
        as (_ & Hsave & _ & Hreads & Hload)
  end.
  - vm_compute. apply list_elem_of_here.
  - split; [by apply Hsave|]. split; [|by apply Hreads]. rewrite Hload.
    + vm_compute. reflexivity.
    + intros f [= <-]. simpl. eauto.
Defined.
